(** * got-simulator: map model, turn ledger and legal-order generator

    A shallow embedding of [game_state.py] and [legal_moves.py].

    Python objects are mutable and their methods may raise, so every method
    is a computation in a small state-and-exception monad: it receives the
    object it is called on, and yields an outcome (a returned value or a
    raised exception) together with the object as the call leaves it.
    Python [int] is unbounded and signed, hence [Z]; [dict] is a [gmap],
    [set] is a [gset], [None]-able attributes are [option]s. *)

From stdpp Require Import gmap strings list fin_maps sorting.

Local Open Scope Z_scope.

(** ** Exceptions, outcomes and the method monad *)

Inductive exn : Type :=
  | ValueError
  | KeyError
  | IndexError.

Inductive outcome (A : Type) : Type :=
  | Returned (a : A)
  | Raised (e : exn).
Arguments Returned {A} a.
Arguments Raised {A} e.

Record M (S A : Type) : Type := MkM { run : S → outcome A * S }.
Arguments MkM {S A} _.
Arguments run {S A} _ _.

Definition ret {S A} (a : A) : M S A := MkM (λ s, (Returned a, s)).

Definition bind {S A B} (k : A → M S B) (m : M S A) : M S B :=
  MkM (λ s, match run m s with
            | (Returned a, s') => run (k a) s'
            | (Raised e, s') => (Raised e, s')
            end).

#[global] Instance M_ret {S} : MRet (M S) := λ A, ret.
#[global] Instance M_bind {S} : MBind (M S) := λ A B, bind.

Definition raise {S A} (e : exn) : M S A := MkM (λ s, (Raised e, s)).
Definition get_self {S} : M S S := MkM (λ s, (Returned s, s)).
Definition modify {S} (f : S → S) : M S unit := MkM (λ s, (Returned tt, f s)).

(** [d[k]] on a dict: raises [KeyError] when the key is absent. *)
Definition getitem {S K V} `{Countable K} (d : gmap K V) (k : K) : M S V :=
  match d !! k with
  | Some v => ret v
  | None => raise KeyError
  end.

(** A list comprehension whose element expression may raise. *)
Fixpoint for_each {S A B} (f : A → M S B) (l : list A) : M S (list B) :=
  match l with
  | [] => ret []
  | a :: l' => b ← f a; bs ← for_each f l'; ret (b :: bs)
  end.

(** [sum(...)]: a left fold from 0. *)
Definition py_sum (l : list Z) : Z := foldl Z.add 0 l.

(** ** Enumerations *)

Inductive OrderType : Type :=
  | MARCH | SUPPORT | DEFEND | RAID | CONSOLIDATE_POWER.

Inductive LocationType : Type :=
  | LAND | SEA.

Inductive UnitType : Type :=
  | FOOTMAN | KNIGHT | SIEGE_ENGINE | BOAT.

Inductive FortificationType : Type :=
  | NONE | CASTLE | STRONGHOLD.

#[global] Instance OrderType_eq_dec : EqDecision OrderType.
Proof. solve_decision. Defined.
#[global] Instance LocationType_eq_dec : EqDecision LocationType.
Proof. solve_decision. Defined.
#[global] Instance UnitType_eq_dec : EqDecision UnitType.
Proof. solve_decision. Defined.
#[global] Instance FortificationType_eq_dec : EqDecision FortificationType.
Proof. solve_decision. Defined.

Definition UnitType_to_nat (u : UnitType) : nat :=
  match u with FOOTMAN => 0 | KNIGHT => 1 | SIEGE_ENGINE => 2 | BOAT => 3 end%nat.

Definition UnitType_of_nat (n : nat) : option UnitType :=
  match n with
  | 0 => Some FOOTMAN | 1 => Some KNIGHT | 2 => Some SIEGE_ENGINE | 3 => Some BOAT
  | _ => None
  end%nat.

#[global] Instance UnitType_countable : Countable UnitType.
Proof.
  apply (inj_countable UnitType_to_nat UnitType_of_nat).
  by intros [].
Defined.

Section Model.

(** Map coordinates are used for drawing only; the model keeps them but
    never looks inside, so their type is left open. *)
Context {coord : Type} `{!EqDecision coord}.

(** ** Location *)

Record Location : Type := MkLocation {
  name : string;
  loc_x : coord;
  loc_y : coord;
  location_type : LocationType;
  owner : option string;
  units : gmap UnitType Z;
  adjacent_locations : gset string;
  supply : Z;
  max_supply : Z;
  crowns : Z;
  fortification : FortificationType
}.

#[global] Instance Location_eq_dec : EqDecision Location.
Proof. solve_decision. Defined.

(** The dataclass defaults: [Location(name=n, x=.., y=..)]. *)
Definition default_units : gmap UnitType Z :=
  <[BOAT := 0]> (<[SIEGE_ENGINE := 0]> (<[KNIGHT := 0]> (<[FOOTMAN := 0]> ∅))).

Definition new_location (n : string) (cx cy : coord) : Location :=
  MkLocation n cx cy LAND None default_units ∅ 0 1 0 NONE.

(** Attribute assignments. *)
Definition with_owner (o : option string) (l : Location) : Location :=
  MkLocation (name l) (loc_x l) (loc_y l) (location_type l) o (units l)
             (adjacent_locations l) (supply l) (max_supply l) (crowns l)
             (fortification l).

Definition with_units (u : gmap UnitType Z) (l : Location) : Location :=
  MkLocation (name l) (loc_x l) (loc_y l) (location_type l) (owner l) u
             (adjacent_locations l) (supply l) (max_supply l) (crowns l)
             (fortification l).

Definition with_adjacent (a : gset string) (l : Location) : Location :=
  MkLocation (name l) (loc_x l) (loc_y l) (location_type l) (owner l) (units l)
             a (supply l) (max_supply l) (crowns l) (fortification l).

Definition with_supply (s : Z) (l : Location) : Location :=
  MkLocation (name l) (loc_x l) (loc_y l) (location_type l) (owner l) (units l)
             (adjacent_locations l) s (max_supply l) (crowns l)
             (fortification l).

Definition with_crowns (c : Z) (l : Location) : Location :=
  MkLocation (name l) (loc_x l) (loc_y l) (location_type l) (owner l) (units l)
             (adjacent_locations l) (supply l) (max_supply l) c
             (fortification l).

Definition with_fortification (f : FortificationType) (l : Location) : Location :=
  MkLocation (name l) (loc_x l) (loc_y l) (location_type l) (owner l) (units l)
             (adjacent_locations l) (supply l) (max_supply l) (crowns l) f.

(** [self.units.get(unit_type, 0)] *)
Definition units_get (l : Location) (k : UnitType) : Z :=
  default 0 (units l !! k).

(** [sum(self.units.values())] *)
Definition get_total_units (l : Location) : Z :=
  py_sum (snd <$> map_to_list (units l)).

Definition has_units (l : Location) : bool :=
  bool_decide (get_total_units l > 0).

Definition add_units (unit_type : UnitType) (count : Z) (new_owner : option string)
  : M Location bool :=
  self ← get_self;
  (match new_owner with
   | Some o =>
       match owner self with
       | None => modify (with_owner (Some o))
       | Some cur => if bool_decide (cur ≠ o) then raise ValueError else ret tt
       end
   | None => ret tt
   end) ;;
  modify (λ l, with_units (<[unit_type := units_get l unit_type + count]> (units l)) l) ;;
  ret true.

Definition remove_units (unit_type : UnitType) (count : Z) : M Location bool :=
  self ← get_self;
  let current := units_get self unit_type in
  if bool_decide (current >= count) then
    v ← getitem (units self) unit_type;
    modify (with_units (<[unit_type := v - count]> (units self))) ;;
    ret true
  else ret false.

Definition set_owner (new_owner : option string) : M Location bool :=
  self ← get_self;
  if has_units self then raise ValueError
  else modify (with_owner new_owner) ;; ret true.

Definition add_supply (amount : Z) : M Location bool :=
  self ← get_self;
  if bool_decide (supply self + amount > max_supply self) then
    modify (with_supply (max_supply self)) ;; ret false
  else
    modify (with_supply (supply self + amount)) ;; ret true.

Definition remove_supply (amount : Z) : M Location bool :=
  self ← get_self;
  if bool_decide (supply self >= amount) then
    modify (with_supply (supply self - amount)) ;; ret true
  else ret false.

Definition add_crowns (amount : Z) : M Location bool :=
  self ← get_self;
  modify (with_crowns (crowns self + amount)) ;; ret true.

Definition remove_crowns (amount : Z) : M Location bool :=
  self ← get_self;
  if bool_decide (crowns self >= amount) then
    modify (with_crowns (crowns self - amount)) ;; ret true
  else ret false.

Definition get_defense_bonus (l : Location) : Z :=
  if decide (fortification l = STRONGHOLD) then 2
  else if decide (fortification l = CASTLE) then 1
  else 0.

Definition set_fortification (fort_type : FortificationType) : M Location unit :=
  modify (with_fortification fort_type).

(** ** Order, PlayerStats *)

Record Order : Type := MkOrder {
  order_type : OrderType;
  location : Location;
  target_location : option Location;
  bot_id : option string
}.

(** Dataclass equality is field-wise, which is what [order in orders] uses. *)
#[global] Instance Order_eq_dec : EqDecision Order.
Proof. solve_decision. Defined.

Record PlayerStats : Type := MkPlayerStats {
  stats_bot_id : string;
  territories : Z;
  power : Z;
  total_units : Z;
  units_killed : Z;
  orders_executed : Z
}.

Definition get_score (st : PlayerStats) : Z := territories st * 10 + power st.

(** One entry of [turn_history], as [record_turn] lays it out. *)
Record StatsSnapshot : Type := MkStatsSnapshot {
  snap_territories : Z;
  snap_power : Z;
  snap_total_units : Z;
  snap_score : Z
}.

Record TurnRecord : Type := MkTurnRecord {
  rec_turn : Z;
  rec_player_stats : gmap string StatsSnapshot
}.

(** ** GameState *)

Record GameState : Type := MkGameState {
  locations : gmap string Location;
  bot_orders : gmap string (list Order);
  player_stats : gmap string PlayerStats;
  turn : Z;
  turn_order : list string;
  current_turn_index : Z;
  active_bots : gset string;
  turn_history : list TurnRecord
}.

Definition new_game_state : GameState :=
  MkGameState ∅ ∅ ∅ 0 [] 0 ∅ [].

Definition with_locations (m : gmap string Location) (g : GameState) : GameState :=
  MkGameState m (bot_orders g) (player_stats g) (turn g) (turn_order g)
              (current_turn_index g) (active_bots g) (turn_history g).

Definition with_turn (t : Z) (g : GameState) : GameState :=
  MkGameState (locations g) (bot_orders g) (player_stats g) t (turn_order g)
              (current_turn_index g) (active_bots g) (turn_history g).

Definition with_turn_order (o : list string) (g : GameState) : GameState :=
  MkGameState (locations g) (bot_orders g) (player_stats g) (turn g) o
              (current_turn_index g) (active_bots g) (turn_history g).

Definition with_current_turn_index (i : Z) (g : GameState) : GameState :=
  MkGameState (locations g) (bot_orders g) (player_stats g) (turn g) (turn_order g)
              i (active_bots g) (turn_history g).

(** [l[i]] on a list: negative indices count from the end, anything outside
    [-len, len) raises [IndexError]. *)
Definition list_getitem {S A} (l : list A) (i : Z) : M S A :=
  let n := Z.of_nat (length l) in
  let j := if bool_decide (i < 0) then i + n else i in
  if bool_decide (0 ≤ j < n) then
    match l !! Z.to_nat j with
    | Some a => ret a
    | None => raise IndexError
    end
  else raise IndexError.

(** [locations] holds the location objects by value, one per key. The
    methods below reach a location only through its key, so a map in which
    one object sits under two keys is not told apart from one holding two
    equal objects. *)
Definition add_location (loc : Location) : M GameState unit :=
  modify (λ g, with_locations (<[name loc := loc]> (locations g)) g).

(** [self.locations[key].adjacent_locations.add(other)]. The set is held
    by value inside its location: one set object handed to two locations
    through the constructor is not told apart from two equal sets. *)
Definition add_adjacent (key other : string) : M GameState unit :=
  self ← get_self;
  loc ← getitem (locations self) key;
  modify (with_locations
            (<[key := with_adjacent (adjacent_locations loc ∪ {[other]}) loc]>
               (locations self))).

Definition connect_locations (loc1_name loc2_name : string) : M GameState unit :=
  self ← get_self;
  if bool_decide (loc1_name ∈ dom (locations self) ∧ loc2_name ∈ dom (locations self))
  then add_adjacent loc1_name loc2_name ;; add_adjacent loc2_name loc1_name
  else ret tt.

(** A Python [set] is enumerated in no particular order; [elements] fixes
    one. Nothing below depends on which. *)
Definition get_adjacent_locations (loc : Location) : M GameState (list Location) :=
  self ← get_self;
  for_each (λ n, getitem (locations self) n)
           (filter (λ n, n ∈ dom (locations self))
                   (elements (adjacent_locations loc))).

(** [self.locations.values()] runs through the dict in insertion order,
    which a [gmap] does not record; [map_to_list] enumerates by key. The
    order shows in [get_legal_orders] only when two of the bot's locations
    carry the same name, where the later one overwrites the earlier. *)
Definition get_bot_locations (bot : string) : M GameState (list Location) :=
  self ← get_self;
  ret (filter (λ loc, owner loc = Some bot) (snd <$> map_to_list (locations self))).

Definition set_turn_order (bot_order : list string) : M GameState unit :=
  modify (with_turn_order bot_order) ;;
  modify (with_current_turn_index 0).

Definition get_current_player : M GameState (option string) :=
  self ← get_self;
  match turn_order self with
  | [] => ret None
  | _ => p ← list_getitem (turn_order self) (current_turn_index self); ret (Some p)
  end.

Definition next_turn : M GameState unit :=
  self ← get_self;
  match turn_order self with
  | [] => ret tt
  | _ =>
      modify (λ g, with_current_turn_index (current_turn_index g + 1) g) ;;
      self ← get_self;
      if bool_decide (current_turn_index self >= Z.of_nat (length (turn_order self)))
      then modify (with_current_turn_index 0) ;;
           modify (λ g, with_turn (turn g + 1) g)
      else ret tt
  end.

Definition reset_turn_order : M GameState unit :=
  modify (with_current_turn_index 0).

(** ** LegalMoveGenerator

    The generator keeps a reference to the game state; its methods are
    computations on that state. *)

(** The body of the loop over adjacent locations: two independent tests. *)
Definition append_orders_to (bot : string) (loc : Location)
    (orders : list Order) (adj_location : Location) : list Order :=
  let orders :=
    if bool_decide (owner adj_location ≠ Some bot)
    then orders ++ [MkOrder MARCH loc (Some adj_location) (Some bot)]
    else orders in
  if bool_decide (owner adj_location = Some bot)
  then orders ++ [MkOrder SUPPORT loc (Some adj_location) (Some bot)]
  else orders.

Definition _get_orders_for_location (bot : string) (loc : Location)
  : M GameState (list Order) :=
  let orders := [MkOrder DEFEND loc None (Some bot)] in
  adjacent ← get_adjacent_locations loc;
  ret (foldl (append_orders_to bot loc) orders adjacent).

(** A [for] loop threading an accumulator, with a body that may raise. *)
Fixpoint for_loop {S A B} (body : B → A → M S B) (l : list A) (acc : B) : M S B :=
  match l with
  | [] => ret acc
  | a :: l' => acc' ← body acc a; for_loop body l' acc'
  end.

Definition get_legal_orders (bot : string) : M GameState (gmap string (list Order)) :=
  controlled_locations ← get_bot_locations bot;
  for_loop
    (λ legal_orders_by_location loc,
       if negb (has_units loc) then ret legal_orders_by_location
       else
         location_orders ← _get_orders_for_location bot loc;
         match location_orders with
         | [] => ret legal_orders_by_location
         | _ => ret (<[name loc := location_orders]> legal_orders_by_location)
         end)
    controlled_locations ∅.

Definition is_legal_order (bot : string) (order : Order) : M GameState bool :=
  legal_orders_by_location ← get_legal_orders bot;
  if bool_decide (name (location order) ∉ dom legal_orders_by_location)
  then ret false
  else
    location_orders ← getitem legal_orders_by_location (name (location order));
    ret (bool_decide (order ∈ location_orders)).

(** ** Player statistics, history and leaderboard *)

Definition with_player_stats (p : gmap string PlayerStats) (g : GameState) : GameState :=
  MkGameState (locations g) (bot_orders g) p (turn g) (turn_order g)
              (current_turn_index g) (active_bots g) (turn_history g).

Definition with_turn_history (h : list TurnRecord) (g : GameState) : GameState :=
  MkGameState (locations g) (bot_orders g) (player_stats g) (turn g) (turn_order g)
              (current_turn_index g) (active_bots g) h.

Definition with_territories (n : Z) (st : PlayerStats) : PlayerStats :=
  MkPlayerStats (stats_bot_id st) n (power st) (total_units st)
                (units_killed st) (orders_executed st).

Definition with_total_units (n : Z) (st : PlayerStats) : PlayerStats :=
  MkPlayerStats (stats_bot_id st) (territories st) (power st) n
                (units_killed st) (orders_executed st).

(** [PlayerStats(bot_id=bot)] *)
Definition new_player_stats (bot : string) : PlayerStats :=
  MkPlayerStats bot 0 0 0 0 0.

Definition get_bot_units (bot : string) : M GameState Z :=
  owned ← get_bot_locations bot;
  ret (foldl (λ total loc, total + get_total_units loc) 0 owned).

Definition initialize_player_stats (bot : string) : M GameState unit :=
  self ← get_self;
  if bool_decide (bot ∉ dom (player_stats self))
  then modify (λ g, with_player_stats (<[bot := new_player_stats bot]> (player_stats g)) g)
  else ret tt.

(** [stats] is the object held under [bot] in [player_stats]; each
    attribute assignment is written back under that key. *)
Definition update_player_stats (bot : string) : M GameState unit :=
  initialize_player_stats bot ;;
  self ← get_self;
  stats ← getitem (player_stats self) bot;
  owned ← get_bot_locations bot;
  let stats := with_territories (Z.of_nat (length owned)) stats in
  modify (λ g, with_player_stats (<[bot := stats]> (player_stats g)) g) ;;
  n ← get_bot_units bot;
  let stats := with_total_units n stats in
  modify (λ g, with_player_stats (<[bot := stats]> (player_stats g)) g).

Definition snapshot_of (st : PlayerStats) : StatsSnapshot :=
  MkStatsSnapshot (territories st) (power st) (total_units st) (get_score st).

Definition record_turn : M GameState unit :=
  self ← get_self;
  let turn_data := MkTurnRecord (turn self) (snapshot_of <$> player_stats self) in
  modify (λ g, with_turn_history (turn_history g ++ [turn_data]) g).

(** [sorted(l, key=key, reverse=True)]: a stable sort into descending key
    order. The result of a stable sort is fixed by its input, so insertion
    stands for the library routine: each element goes in front of the
    first later element whose key is not larger. *)
Fixpoint insert_descending {A} (key : A → Z) (x : A) (l : list A) : list A :=
  match l with
  | [] => [x]
  | y :: l' =>
      if bool_decide (key y ≤ key x) then x :: y :: l'
      else y :: insert_descending key x l'
  end.

Definition sorted_reverse {A} (key : A → Z) (l : list A) : list A :=
  foldr (insert_descending key) [] l.

(** A leaderboard row: [(bot_id, score, territories, total_units)]. *)
Definition leaderboard_row (entry : string * PlayerStats) : string * Z * Z * Z :=
  (entry.1, get_score entry.2, territories entry.2, total_units entry.2).

Definition row_score (row : string * Z * Z * Z) : Z := row.1.1.2.

(** [player_stats.items()] comes in insertion order in Python and in key
    order here; the order matters only for the ranking of equal scores. *)
Definition get_leaderboard : M GameState (list (string * Z * Z * Z)) :=
  self ← get_self;
  let scores := leaderboard_row <$> map_to_list (player_stats self) in
  ret (sorted_reverse row_score scores).

(** ** GreedyBot ([bot.py]) *)

(** [l[:n]] for [n >= 0] is [take n l]. *)
Definition GreedyBot_choose_orders (legal_orders : list Order) : list Order :=
  match legal_orders with
  | [] => []
  | _ =>
      let march_orders := filter (λ o, order_type o = MARCH) legal_orders in
      let support_orders := filter (λ o, order_type o = SUPPORT) legal_orders in
      let defend_orders := filter (λ o, order_type o = DEFEND) legal_orders in
      let chosen :=
        march_orders ++ take (length march_orders) support_orders
                     ++ take 1 defend_orders in
      take (length legal_orders) chosen
  end.

(** ** Map assembly as data *)

Inductive MapOp : Type :=
  | OpAddLocation (loc : Location)
  | OpConnect (loc1_name loc2_name : string).

Definition perform_map (op : MapOp) : M GameState unit :=
  match op with
  | OpAddLocation loc => add_location loc
  | OpConnect a b => connect_locations a b
  end.

Inductive map_reachable : GameState → Prop :=
  | map_reach_new : map_reachable new_game_state
  | map_reach_step g op :
      map_reachable g → map_reachable (run (perform_map op) g).2.

(** Whoever lists a neighbour is a known location listed back by it. *)
Definition adjacency_symmetric (g : GameState) : Prop :=
  ∀ a b la, locations g !! a = Some la → b ∈ adjacent_locations la →
            ∃ lb, locations g !! b = Some lb ∧ a ∈ adjacent_locations lb.

(** Maps put together the way the repository's scripts do it: each
    location is registered as the constructor made it, with the empty
    adjacency set of its own that [default_factory=set] gives it, under a
    name not yet in use; links come from [connect_locations] only. No two
    locations of such a map share a set. *)
Inductive freshly_assembled : GameState → Prop :=
  | fresh_new : freshly_assembled new_game_state
  | fresh_add g loc :
      freshly_assembled g →
      adjacent_locations loc = ∅ → name loc ∉ dom (locations g) →
      freshly_assembled (run (add_location loc) g).2
  | fresh_connect g a b :
      freshly_assembled g →
      freshly_assembled (run (connect_locations a b) g).2.

(** ** Sequences of calls

    The public mutators of a location, as data, so that arbitrary call
    sequences can be quantified over. A call that raises leaves the object
    as it stood when the exception was thrown; the caller may go on. *)

Inductive LocationOp : Type :=
  | OpAddUnits (unit_type : UnitType) (count : Z) (new_owner : option string)
  | OpRemoveUnits (unit_type : UnitType) (count : Z)
  | OpAddSupply (amount : Z)
  | OpRemoveSupply (amount : Z)
  | OpAddCrowns (amount : Z)
  | OpRemoveCrowns (amount : Z)
  | OpSetOwner (new_owner : option string).

Definition perform (op : LocationOp) : M Location bool :=
  match op with
  | OpAddUnits k c o => add_units k c o
  | OpRemoveUnits k c => remove_units k c
  | OpAddSupply a => add_supply a
  | OpRemoveSupply a => remove_supply a
  | OpAddCrowns a => add_crowns a
  | OpRemoveCrowns a => remove_crowns a
  | OpSetOwner o => set_owner o
  end.

Definition perform_all (ops : list LocationOp) (l : Location) : Location :=
  foldl (λ s op, (run (perform op) s).2) l ops.

(** The amounts handed to the three adders. *)
Definition adds_non_negative (op : LocationOp) : Prop :=
  match op with
  | OpAddUnits _ c _ => 0 ≤ c
  | OpAddSupply a => 0 ≤ a
  | OpAddCrowns a => 0 ≤ a
  | _ => True
  end.

Definition is_set_owner (op : LocationOp) : bool :=
  match op with OpSetOwner _ => true | _ => false end.

Definition non_negative (l : Location) : Prop :=
  (∀ k n, units l !! k = Some n → 0 ≤ n) ∧ 0 ≤ supply l ∧ 0 ≤ crowns l.

(** The turn-sequencing calls of a game state. *)
Inductive TurnOp : Type :=
  | OpSetTurnOrder (bot_order : list string)
  | OpNextTurn
  | OpResetTurnOrder.

Definition perform_turn (op : TurnOp) : M GameState unit :=
  match op with
  | OpSetTurnOrder o => set_turn_order o
  | OpNextTurn => next_turn
  | OpResetTurnOrder => reset_turn_order
  end.

Inductive turn_reachable : GameState → Prop :=
  | reach_new : turn_reachable new_game_state
  | reach_step g op :
      turn_reachable g → turn_reachable (run (perform_turn op) g).2.

(** Every location of the map carries a name of its own. [add_location]
    files each location under its name, so maps built with it have this. *)
Definition names_unique (g : GameState) : Prop :=
  ∀ k1 k2 l1 l2,
    locations g !! k1 = Some l1 → locations g !! k2 = Some l2 →
    name l1 = name l2 → k1 = k2.

Definition keyed_by_name (g : GameState) : Prop :=
  ∀ k l, locations g !! k = Some l → name l = k.

(** Every state-changing call of a game state, as data. *)
Inductive GameOp : Type :=
  | OpMap (op : MapOp)
  | OpTurn (op : TurnOp)
  | OpInitializeStats (bot : string)
  | OpUpdateStats (bot : string)
  | OpRecordTurn.

Definition perform_game (op : GameOp) : M GameState unit :=
  match op with
  | OpMap op => perform_map op
  | OpTurn op => perform_turn op
  | OpInitializeStats bot => initialize_player_stats bot
  | OpUpdateStats bot => update_player_stats bot
  | OpRecordTurn => record_turn
  end.

Definition perform_game_all (ops : list GameOp) (g : GameState) : GameState :=
  foldl (λ s op, (run (perform_game op) s).2) g ops.

Definition is_record_turn (op : GameOp) : bool :=
  match op with OpRecordTurn => true | _ => false end.

Definition is_next_turn (op : GameOp) : bool :=
  match op with OpTurn OpNextTurn => true | _ => false end.

Definition is_map_op (op : GameOp) : bool :=
  match op with OpMap _ => true | _ => false end.

(** ** Auxiliary notions

    Closed forms of what the methods above compute, used to state and
    prove their properties. *)

(** Both ends list each other. *)
Definition linked (g : GameState) (a b : string) : Prop :=
  ∃ la lb, locations g !! a = Some la ∧ locations g !! b = Some lb ∧
           b ∈ adjacent_locations la ∧ a ∈ adjacent_locations lb.

(** The adjacency names of a location that the map knows. *)
Definition known_neighbours (g : GameState) (loc : Location) : list string :=
  filter (λ n, n ∈ dom (locations g)) (elements (adjacent_locations loc)).

Definition adjacent_of (g : GameState) (loc : Location) : list Location :=
  omap (λ n, locations g !! n) (known_neighbours g loc).

(** The one order towards a neighbour. *)
Definition order_towards (bot : string) (loc adj_location : Location) : Order :=
  MkOrder (if bool_decide (owner adj_location = Some bot) then SUPPORT else MARCH)
          loc (Some adj_location) (Some bot).

Definition orders_of (g : GameState) (bot : string) (loc : Location) : list Order :=
  MkOrder DEFEND loc None (Some bot) :: (order_towards bot loc <$> adjacent_of g loc).


Definition controlled_by (g : GameState) (bot : string) : list Location :=
  filter (λ loc, owner loc = Some bot) (snd <$> map_to_list (locations g)).

Definition file_orders (g : GameState) (bot : string)
    (acc : gmap string (list Order)) (loc : Location) : gmap string (list Order) :=
  if has_units loc then <[name loc := orders_of g bot loc]> acc else acc.

(** The stats a bot has, or would be given on first sight. *)
Definition stats_or_new (g : GameState) (bot : string) : PlayerStats :=
  default (new_player_stats bot) (player_stats g !! bot).

End Model.

Arguments Location : clear implicits.
Arguments Order : clear implicits.
Arguments GameState : clear implicits.
Arguments LocationOp : clear implicits.
Arguments MapOp : clear implicits.
Arguments GameOp : clear implicits.

(** ** Sample data, on integer coordinates *)

Definition winterfell : Location Z := new_location "Winterfell" 0 0.

(** Winterfell after [add_units(FOOTMAN, 2, owner="Stark")]. *)
Definition winterfell_held : Location Z :=
  (run (add_units FOOTMAN 2 (Some "Stark"%string)) winterfell).2.

(** Winterfell after [add_units(FOOTMAN, -1)]: the call is accepted. *)
Definition winterfell_overdrawn : Location Z :=
  (run (add_units FOOTMAN (-1) None) winterfell).2.

(** [Location(name="Depot", max_supply=3)] after [add_supply(2)]. *)
Definition depot : Location Z :=
  (run (add_supply 2)
       (MkLocation "Depot"%string 0 0 LAND None default_units ∅ 0 3 0 NONE)).2.

(** [Location(name="Wasteland", max_supply=-1)] *)
Definition wasteland : Location Z :=
  MkLocation "Wasteland"%string 0 0 LAND None default_units ∅ 0 (-1) 0 NONE.

(** [Location(name="Outpost", units={UnitType.FOOTMAN: 3})] *)
Definition outpost : Location Z :=
  MkLocation "Outpost"%string 0 0 LAND None {[FOOTMAN := 3]} ∅ 0 1 0 NONE.

Definition moat_cailin_held : Location Z :=
  (run (add_units FOOTMAN 1 (Some "Stark"%string))
       (new_location "Moat Cailin" 0 1)).2.

Definition twins_held : Location Z :=
  (run (add_units KNIGHT 1 (Some "Frey"%string))
       (new_location "The Twins" 0 2)).2.

(** Three locations in a row: Winterfell - Moat Cailin - The Twins. *)
Definition westeros : GameState Z :=
  (run (add_location winterfell_held ;;
        add_location moat_cailin_held ;;
        add_location twins_held ;;
        connect_locations "Winterfell" "Moat Cailin" ;;
        connect_locations "Moat Cailin" "The Twins")
       new_game_state).2.

(** Moat Cailin as [westeros] holds it, with both links in place. *)
Definition moat_cailin_linked : Location Z :=
  with_adjacent ({["Winterfell"%string]} ∪ {["The Twins"%string]}) moat_cailin_held.




(** A fresh game after [set_turn_order(["Stark", "Lannister", "Baratheon"])]. *)
Definition three_houses : GameState Z :=
  (run (set_turn_order ["Stark"; "Lannister"; "Baratheon"]%string)
       new_game_state).2.

(** * Properties *)

Section Properties.

Context {coord : Type} `{!EqDecision coord}.
Implicit Types (l : Location coord) (g : GameState coord).

(** ** Running computations *)

Lemma run_bind {S A B} (m : M S A) (k : A → M S B) (s : S) :
  run (m ≫= k) s =
    match run m s with
    | (Returned a, s') => run (k a) s'
    | (Raised e, s') => (Raised e, s')
    end.
Proof. done. Qed.

Lemma getitem_present {S K V} `{Countable K} (d : gmap K V) (k : K) (v : V) (s : S) :
  d !! k = Some v → run (getitem d k) s = (Returned v, s).
Proof. intros Hk. unfold getitem. by rewrite Hk. Qed.

Lemma list_getitem_in_range {S A} (l : list A) (i : Z) (s : S) (a : A) :
  0 ≤ i → l !! Z.to_nat i = Some a →
  run (list_getitem l i) s = (Returned a, s).
Proof.
  intros Hi Ha. unfold list_getitem. cbv zeta.
  rewrite (bool_decide_eq_false_2 (i < 0)) by lia.
  pose proof (lookup_lt_Some _ _ _ Ha) as Hlt.
  rewrite bool_decide_eq_true_2 by lia.
  by rewrite Ha.
Qed.

(** ** Supply *)

Lemma with_supply_same l : with_supply (supply l) l = l.
Proof. by destruct l. Qed.

Lemma add_supply_at_cap l amount :
  supply l = max_supply l → 0 ≤ amount → (run (add_supply amount) l).2 = l.
Proof.
  intros Hcap Hamount. unfold add_supply. cbn.
  case_bool_decide; cbn.
  - rewrite <- Hcap. apply with_supply_same.
  - assert (amount = 0) as -> by lia.
    rewrite Z.add_0_r. apply with_supply_same.
Qed.

(** C6. Starting at or below the cap, with a non-negative amount,
    [add_supply] never leaves [supply] above [max_supply]: an overflowing
    amount sets [supply] to exactly [max_supply] and returns [False], any
    other amount is added in full and returns [True]; and once [supply]
    equals [max_supply], any number of further calls leaves the location
    as it is, at the cap. *)
Theorem add_supply_capped l amount :
  supply l ≤ max_supply l → 0 ≤ amount →
  supply (run (add_supply amount) l).2 ≤ max_supply (run (add_supply amount) l).2 ∧
  (supply l + amount > max_supply l →
     run (add_supply amount) l = (Returned false, with_supply (max_supply l) l)) ∧
  (supply l + amount ≤ max_supply l →
     run (add_supply amount) l = (Returned true, with_supply (supply l + amount) l)) ∧
  (supply l = max_supply l →
     ∀ amounts, Forall (λ a, 0 ≤ a) amounts →
       foldl (λ s a, (run (add_supply a) s).2) l amounts = l).
Proof.
  intros Hle Hamount. repeat split.
  - unfold add_supply. cbn. case_bool_decide; cbn; lia.
  - intros Hover. unfold add_supply. cbn. by rewrite bool_decide_eq_true_2.
  - intros Hfits. unfold add_supply. cbn. rewrite bool_decide_eq_false_2; [done | lia].
  - intros Hcap amounts Hall.
    induction Hall as [|a amounts Ha _ IH]; [done |].
    cbn [foldl]. by rewrite add_supply_at_cap.
Qed.

(** ** Unit totals *)

Lemma foldl_add_non_negative (vs : list Z) (a : Z) :
  Forall (λ v, 0 ≤ v) vs → 0 ≤ a → 0 ≤ foldl Z.add a vs.
Proof.
  intros Hvs. revert a.
  induction Hvs as [|v vs Hv _ IH]; intros a Ha; cbn; [done |].
  apply IH. lia.
Qed.

Lemma get_total_units_non_negative l :
  (∀ k n, units l !! k = Some n → 0 ≤ n) → 0 ≤ get_total_units l.
Proof.
  intros Hunits. unfold get_total_units, py_sum.
  apply foldl_add_non_negative; [| done].
  apply Forall_forall. intros v Hv.
  apply list_elem_of_fmap in Hv as [[k n] [-> Hkn]].
  apply elem_of_map_to_list in Hkn. by eapply Hunits.
Qed.

Lemma has_units_true l : has_units l = true ↔ get_total_units l > 0.
Proof. unfold has_units. by rewrite bool_decide_eq_true. Qed.

Lemma has_units_false l : has_units l = false ↔ get_total_units l ≤ 0.
Proof. unfold has_units. rewrite bool_decide_eq_false. lia. Qed.

(** ** Ownership *)

(** C3, as the code has it. [set_owner] succeeds, replacing the owner
    whatever it was, exactly when the total unit count is not positive;
    when it is positive the call raises [ValueError] and the location is
    left as it was. For a location whose unit counts are all non-negative,
    "not positive" is "zero". *)
Theorem set_owner_only_without_units l new_owner :
  (get_total_units l ≤ 0 →
     run (set_owner new_owner) l = (Returned true, with_owner new_owner l)) ∧
  (get_total_units l > 0 →
     run (set_owner new_owner) l = (Raised ValueError, l)) ∧
  ((∃ l', run (set_owner new_owner) l = (Returned true, l')) ↔
     get_total_units l ≤ 0) ∧
  ((∀ k n, units l !! k = Some n → 0 ≤ n) →
     ((∃ l', run (set_owner new_owner) l = (Returned true, l')) ↔
        get_total_units l = 0)).
Proof.
  assert (get_total_units l ≤ 0 →
          run (set_owner new_owner) l = (Returned true, with_owner new_owner l))
    as Hok.
  { intros H%has_units_false. unfold set_owner. cbn. by rewrite H. }
  assert (get_total_units l > 0 →
          run (set_owner new_owner) l = (Raised ValueError, l)) as Hfail.
  { intros H%has_units_true. unfold set_owner. cbn. by rewrite H. }
  assert ((∃ l', run (set_owner new_owner) l = (Returned true, l')) ↔
          get_total_units l ≤ 0) as Hiff.
  { split.
    - intros [l' Hrun].
      destruct (decide (get_total_units l ≤ 0)) as [|Hpos]; [done |].
      rewrite Hfail in Hrun by lia. discriminate.
    - intros H. eexists. by apply Hok. }
  split; [done |]. split; [done |]. split; [done |].
  intros Hunits. rewrite Hiff.
  pose proof (get_total_units_non_negative l Hunits). lia.
Qed.

(** The two ways a call to [add_units] can end. *)
Lemma add_units_outcomes l unit_type count new_owner :
  run (add_units unit_type count new_owner) l = (Raised ValueError, l) ∨
  ∃ l0, (l0 = l ∨ ∃ o, l0 = with_owner (Some o) l) ∧
        run (add_units unit_type count new_owner) l =
          (Returned true,
           with_units (<[unit_type := units_get l unit_type + count]> (units l)) l0).
Proof.
  unfold add_units. cbn.
  destruct new_owner as [o|]; [destruct (owner l) as [cur|] eqn:Hcur |]; cbn;
    try case_bool_decide; cbn; eauto 6.
Qed.

(** C4. [add_units] with an explicit owner: on an unowned location it
    assigns that owner and adds the units; on a location that owner
    already holds it adds the units and leaves the owner; on a location
    held by somebody else it raises [ValueError] and changes nothing,
    neither the owner nor any unit count. Without an owner argument it
    adds the units whoever holds the location. Whenever the call returns
    it returns [True] and has raised the count of the given kind by
    exactly [count], leaving the other kinds alone. No bound on [count]
    is needed. *)
Theorem add_units_checks_owner l unit_type count o :
  (owner l = None →
     run (add_units unit_type count (Some o)) l =
       (Returned true,
        with_units (<[unit_type := units_get l unit_type + count]> (units l))
                   (with_owner (Some o) l))) ∧
  (owner l = Some o →
     run (add_units unit_type count (Some o)) l =
       (Returned true,
        with_units (<[unit_type := units_get l unit_type + count]> (units l)) l)) ∧
  run (add_units unit_type count None) l =
    (Returned true,
     with_units (<[unit_type := units_get l unit_type + count]> (units l)) l) ∧
  (∀ cur, owner l = Some cur → cur ≠ o →
     run (add_units unit_type count (Some o)) l = (Raised ValueError, l)) ∧
  (∀ new_owner b l',
     run (add_units unit_type count new_owner) l = (Returned b, l') →
     b = true ∧
     units_get l' unit_type = units_get l unit_type + count ∧
     (∀ k, k ≠ unit_type → units l' !! k = units l !! k)).
Proof.
  split; [| split; [| split; [| split]]].
  - intros Hnone. unfold add_units. cbn. by rewrite Hnone.
  - intros Hsame. unfold add_units. cbn. rewrite Hsame.
    by rewrite bool_decide_eq_false_2 by (intros Hne; by apply Hne).
  - done.
  - intros cur Hcur Hne. unfold add_units. cbn. rewrite Hcur.
    by rewrite bool_decide_eq_true_2.
  - intros new_owner b l' Hrun.
    destruct (add_units_outcomes l unit_type count new_owner)
      as [Hraise | (l0 & Hl0 & Hret)]; rewrite Hrun in *; [discriminate |].
    injection Hret as -> ->.
    split; [done |]. split.
    + unfold units_get at 1. cbn. by rewrite lookup_insert_eq.
    + intros k Hk. cbn. by rewrite lookup_insert_ne.
Qed.

(** ** Removing resources *)

Lemma remove_supply_checked l amount :
  (supply l >= amount →
     run (remove_supply amount) l = (Returned true, with_supply (supply l - amount) l)) ∧
  (supply l < amount → run (remove_supply amount) l = (Returned false, l)).
Proof.
  unfold remove_supply. cbn. split; intros Hcmp.
  - by rewrite bool_decide_eq_true_2.
  - rewrite bool_decide_eq_false_2; [done | lia].
Qed.

Lemma remove_crowns_checked l amount :
  (crowns l >= amount →
     run (remove_crowns amount) l = (Returned true, with_crowns (crowns l - amount) l)) ∧
  (crowns l < amount → run (remove_crowns amount) l = (Returned false, l)).
Proof.
  unfold remove_crowns. cbn. split; intros Hcmp.
  - by rewrite bool_decide_eq_true_2.
  - rewrite bool_decide_eq_false_2; [done | lia].
Qed.

(** [remove_units] on a kind that has an entry in [units]. *)
Lemma remove_units_checked l unit_type count v :
  units l !! unit_type = Some v →
  (v >= count →
     run (remove_units unit_type count) l =
       (Returned true, with_units (<[unit_type := v - count]> (units l)) l)) ∧
  (v < count → run (remove_units unit_type count) l = (Returned false, l)).
Proof.
  intros Hv. unfold remove_units, units_get, getitem. cbn. rewrite Hv. cbn.
  split; intros Hcmp.
  - by rewrite bool_decide_eq_true_2.
  - rewrite bool_decide_eq_false_2; [done | lia].
Qed.

(** [remove_units] on a kind without an entry: the guard reads the count
    with a default of 0, the update then indexes the dict. *)
Lemma remove_units_no_entry l unit_type count :
  units l !! unit_type = None →
  (count ≤ 0 → run (remove_units unit_type count) l = (Raised KeyError, l)) ∧
  (0 < count → run (remove_units unit_type count) l = (Returned false, l)).
Proof.
  intros Hnone. unfold remove_units, units_get, getitem. cbn. rewrite Hnone. cbn.
  split; intros Hcmp.
  - rewrite bool_decide_eq_true_2; [done | lia].
  - rewrite bool_decide_eq_false_2; [done | lia].
Qed.

(** ** Non-negativity across call sequences *)

Lemma units_get_non_negative l k :
  (∀ k' n, units l !! k' = Some n → 0 ≤ n) → 0 ≤ units_get l k.
Proof.
  intros Hunits. unfold units_get.
  destruct (units l !! k) as [n|] eqn:Hk; cbn; [by eapply Hunits | done].
Qed.

Lemma insert_units_non_negative (u : gmap UnitType Z) k v :
  (∀ k' n, u !! k' = Some n → 0 ≤ n) → 0 ≤ v →
  ∀ k' n, <[k := v]> u !! k' = Some n → 0 ≤ n.
Proof.
  intros Hu Hv k' n. rewrite lookup_insert. case_decide.
  - by intros [= <-].
  - apply Hu.
Qed.

Lemma perform_keeps_non_negative l op :
  non_negative l → 0 ≤ max_supply l → adds_non_negative op →
  non_negative (run (perform op) l).2 ∧
  max_supply (run (perform op) l).2 = max_supply l.
Proof.
  intros (Hunits & Hsupply & Hcrowns) Hmax Hop.
  destruct op as [k c o | k c | a | a | a | a | o]; cbn in Hop; cbn [perform].
  - pose proof (units_get_non_negative l k Hunits) as Hk.
    destruct (add_units_outcomes l k c o) as [-> | (l0 & Hl0 & ->)]; [done |].
    cbn. split.
    + split; [| by destruct Hl0 as [-> | [o' ->]]].
      apply insert_units_non_negative; [done | lia].
    + by destruct Hl0 as [-> | [o' ->]].
  - destruct (units l !! k) as [v|] eqn:Hv.
    + destruct (decide (v >= c)) as [Hge|Hlt].
      * rewrite (proj1 (remove_units_checked l k c v Hv) Hge). cbn.
        split; [| done]. split; [| done]. cbn.
        apply insert_units_non_negative; [done |]. lia.
      * rewrite (proj2 (remove_units_checked l k c v Hv)) by lia. done.
    + destruct (decide (c ≤ 0)) as [Hle|Hgt].
      * by rewrite (proj1 (remove_units_no_entry l k c Hv) Hle).
      * rewrite (proj2 (remove_units_no_entry l k c Hv)) by lia. done.
  - unfold add_supply. cbn. case_bool_decide; cbn; (split; [| done]);
      (split; [done |]); cbn; (split; [lia | done]).
  - unfold remove_supply. cbn. case_bool_decide; cbn; (split; [| done]);
      (split; [done |]); cbn; (split; [lia | done]).
  - unfold add_crowns. cbn. split; [| done]. split; [done |]. cbn. lia.
  - unfold remove_crowns. cbn. case_bool_decide; cbn; (split; [| done]);
      (split; [done |]); cbn; lia.
  - unfold set_owner. cbn. destruct (has_units l); cbn; done.
Qed.

(** C8, with the two conditions the code needs. If the unit counts, the
    supply and the crowns of a location are non-negative, its [max_supply]
    is non-negative, and the amounts handed to [add_units], [add_supply]
    and [add_crowns] are non-negative, then after any sequence of
    [add_units], [remove_units], [add_supply], [remove_supply],
    [add_crowns], [remove_crowns] and [set_owner] calls (whatever the
    removers are asked for, and whether or not calls raise) every unit
    count, the supply and the crowns are still non-negative. *)
Theorem mutators_keep_non_negative l ops :
  non_negative l → 0 ≤ max_supply l → Forall adds_non_negative ops →
  non_negative (perform_all ops l).
Proof.
  intros Hl Hmax Hops. revert l Hl Hmax.
  induction Hops as [|op ops Hop _ IH]; intros l Hl Hmax; [done |].
  unfold perform_all. cbn [foldl].
  destruct (perform_keeps_non_negative l op Hl Hmax Hop) as [Hl' Hmax'].
  apply IH; [done |]. by rewrite Hmax'.
Qed.

(** ** Turn sequencing *)

Lemma next_turn_empty g :
  turn_order g = [] → run next_turn g = (Returned tt, g).
Proof. intros Hempty. unfold next_turn. cbn. by rewrite Hempty. Qed.

Lemma next_turn_advance g :
  turn_order g ≠ [] →
  current_turn_index g + 1 < Z.of_nat (length (turn_order g)) →
  run next_turn g =
    (Returned tt, with_current_turn_index (current_turn_index g + 1) g).
Proof.
  intros Hne Hlt. unfold next_turn. cbn.
  destruct (turn_order g) as [|p ps] eqn:Horder; [done |]. cbn.
  rewrite Horder. rewrite bool_decide_eq_false_2; [done | lia].
Qed.

Lemma next_turn_wrap g :
  turn_order g ≠ [] →
  current_turn_index g + 1 >= Z.of_nat (length (turn_order g)) →
  run next_turn g =
    (Returned tt, with_turn (turn g + 1) (with_current_turn_index 0 g)).
Proof.
  intros Hne Hge. unfold next_turn. cbn.
  destruct (turn_order g) as [|p ps] eqn:Horder; [done |]. cbn.
  rewrite Horder. rewrite bool_decide_eq_true_2; [done | lia].
Qed.

Lemma get_current_player_in_range g :
  turn_order g ≠ [] →
  0 ≤ current_turn_index g < Z.of_nat (length (turn_order g)) →
  ∃ p, run get_current_player g = (Returned (Some p), g) ∧
       turn_order g !! Z.to_nat (current_turn_index g) = Some p.
Proof.
  intros Hne Hrange.
  destruct (lookup_lt_is_Some_2 (turn_order g) (Z.to_nat (current_turn_index g)))
    as [p Hp]; [lia |].
  exists p. split; [| done].
  unfold get_current_player. cbn.
  destruct (turn_order g) as [|q qs] eqn:Horder; [done |].
  rewrite run_bind, (list_getitem_in_range _ _ _ p) by (done || lia). done.
Qed.

(** C2. With three bots in the rotation and the pointer on the first,
    three [next_turn] calls bring the pointer back to the first bot and
    raise [turn] by exactly one: the first two calls only move the pointer
    (to 1, then 2) and leave [turn] alone, the third wraps. *)
Theorem three_next_turns_one_round g A B C :
  turn_order g = [A; B; C] → current_turn_index g = 0 →
  let g1 := (run next_turn g).2 in
  let g2 := (run next_turn g1).2 in
  let g3 := (run next_turn g2).2 in
  (current_turn_index g1 = 1 ∧ turn g1 = turn g) ∧
  (current_turn_index g2 = 2 ∧ turn g2 = turn g) ∧
  (current_turn_index g3 = 0 ∧ turn g3 = turn g + 1) ∧
  turn_order g3 = [A; B; C] ∧
  run get_current_player g3 = (Returned (Some A), g3).
Proof.
  intros Horder Hindex g1 g2 g3.
  assert (g1 = with_current_turn_index 1 g) as Hg1.
  { unfold g1. rewrite next_turn_advance; rewrite ?Horder, ?Hindex; done. }
  assert (g2 = with_current_turn_index 2 g) as Hg2.
  { unfold g2. rewrite Hg1, next_turn_advance; cbn; rewrite ?Horder; done. }
  assert (g3 = with_turn (turn g + 1) (with_current_turn_index 0 g)) as Hg3.
  { unfold g3. rewrite Hg2, next_turn_wrap; cbn; rewrite ?Horder; done. }
  rewrite Hg1, Hg2, Hg3. cbn. repeat split; try done.
  unfold get_current_player. cbn. by rewrite Horder.
Qed.

(** A whole rotation, whatever its length: from pointer [i], the
    [len - i] calls that finish the round leave the pointer at 0 and
    [turn] one higher. *)
Lemma finish_round g (n : nat) :
  turn_order g ≠ [] →
  0 ≤ current_turn_index g →
  current_turn_index g + Z.of_nat n = Z.of_nat (length (turn_order g)) →
  (0 < n)%nat →
  Nat.iter n (λ s, (run next_turn s).2) g =
    with_turn (turn g + 1) (with_current_turn_index 0 g).
Proof.
  revert g. induction n as [|n IH]; intros g Hne Hge Hlen Hpos; [lia |].
  rewrite Nat.iter_succ_r.
  destruct n as [|n].
  - rewrite next_turn_wrap by (done || lia). done.
  - rewrite next_turn_advance by (done || lia). cbn [snd].
    rewrite IH; cbn; [done | done | lia | lia | lia].
Qed.

Lemma perform_turn_returns g op :
  ∃ g', run (perform_turn op) g = (Returned tt, g').
Proof.
  destruct op as [o | |]; cbn [perform_turn].
  - by eexists.
  - destruct (decide (turn_order g = [])) as [Hempty|Hne].
    + rewrite next_turn_empty by done. by eexists.
    + destruct (decide (current_turn_index g + 1 <
                        Z.of_nat (length (turn_order g)))).
      * rewrite next_turn_advance by done. by eexists.
      * rewrite next_turn_wrap by (done || lia). by eexists.
  - by eexists.
Qed.

Lemma perform_turn_keeps_index_in_range g op :
  (turn_order g ≠ [] →
   0 ≤ current_turn_index g < Z.of_nat (length (turn_order g))) →
  let g' := (run (perform_turn op) g).2 in
  turn_order g' ≠ [] →
  0 ≤ current_turn_index g' < Z.of_nat (length (turn_order g')).
Proof.
  intros Hinv. destruct op as [o | |]; cbn [perform_turn].
  - cbn. intros Hne. destruct o; [done |]. cbn. lia.
  - destruct (decide (turn_order g = [])) as [Hempty|Hne].
    + rewrite next_turn_empty by done. cbn. done.
    + specialize (Hinv Hne).
      destruct (decide (current_turn_index g + 1 <
                        Z.of_nat (length (turn_order g)))).
      * rewrite next_turn_advance by done. cbn. lia.
      * rewrite next_turn_wrap by (done || lia). cbn.
        intros _. destruct (turn_order g); [done |]. cbn. lia.
  - cbn. intros Hne. destruct (turn_order g); [done |]. cbn. lia.
Qed.

(** C10. In every state reached from the empty game state by
    [set_turn_order], [next_turn] and [reset_turn_order] calls, a
    non-empty rotation has [0 <= current_turn_index < len(turn_order)];
    hence [get_current_player] never indexes out of range: it returns
    [None] exactly when the rotation is empty, and otherwise the member of
    [turn_order] the pointer is on. It never changes the state. *)
Theorem turn_pointer_stays_in_range g :
  turn_reachable g →
  (turn_order g ≠ [] →
     0 ≤ current_turn_index g < Z.of_nat (length (turn_order g))) ∧
  (turn_order g = [] → run get_current_player g = (Returned None, g)) ∧
  (turn_order g ≠ [] →
     ∃ p, run get_current_player g = (Returned (Some p), g) ∧
          p ∈ turn_order g ∧
          turn_order g !! Z.to_nat (current_turn_index g) = Some p) ∧
  (run get_current_player g = (Returned None, g) ↔ turn_order g = []).
Proof.
  intros Hreach.
  assert (turn_order g ≠ [] →
          0 ≤ current_turn_index g < Z.of_nat (length (turn_order g))) as Hinv.
  { induction Hreach as [|g op _ IH]; [done |].
    by apply perform_turn_keeps_index_in_range. }
  assert (turn_order g = [] → run get_current_player g = (Returned None, g))
    as Hnone.
  { intros Hempty. unfold get_current_player. cbn. by rewrite Hempty. }
  assert (turn_order g ≠ [] →
          ∃ p, run get_current_player g = (Returned (Some p), g) ∧
               p ∈ turn_order g ∧
               turn_order g !! Z.to_nat (current_turn_index g) = Some p)
    as Hsome.
  { intros Hne.
    destruct (get_current_player_in_range g Hne (Hinv Hne)) as (p & Hrun & Hp).
    exists p. split; [done |]. split; [| done].
    by eapply list_elem_of_lookup_2. }
  split; [done |]. split; [done |]. split; [done |].
  split; [| done].
  intros Hrun. destruct (decide (turn_order g = [])) as [|Hne]; [done |].
  destruct (Hsome Hne) as (p & Hp & _). rewrite Hp in Hrun. discriminate.
Qed.

(** ** Adjacency *)

Lemma with_adjacent_same l : with_adjacent (adjacent_locations l) l = l.
Proof. by destruct l. Qed.

Lemma with_locations_same g : with_locations (locations g) g = g.
Proof. by destruct g. Qed.

Lemma add_adjacent_present g key other l :
  locations g !! key = Some l →
  run (add_adjacent key other) g =
    (Returned tt,
     with_locations
       (<[key := with_adjacent (adjacent_locations l ∪ {[other]}) l]> (locations g))
       g).
Proof.
  intros Hkey. unfold add_adjacent. cbn.
  by rewrite run_bind, (getitem_present _ _ l).
Qed.

Lemma add_adjacent_known g key other l :
  locations g !! key = Some l → other ∈ adjacent_locations l →
  run (add_adjacent key other) g = (Returned tt, g).
Proof.
  intros Hkey Hother. rewrite (add_adjacent_present g key other l Hkey).
  assert (adjacent_locations l ∪ {[other]} = adjacent_locations l) as ->.
  { rewrite (comm_L (∪)). by apply subseteq_union_1_L, singleton_subseteq_l. }
  by rewrite with_adjacent_same, insert_id, with_locations_same.
Qed.

Lemma connect_locations_known g a b :
  a ∈ dom (locations g) → b ∈ dom (locations g) →
  run (connect_locations a b) g =
    run (add_adjacent a b ≫= λ _, add_adjacent b a) g.
Proof.
  intros Ha Hb. unfold connect_locations. cbn.
  by rewrite bool_decide_eq_true_2.
Qed.

Lemma connect_locations_unknown g a b :
  a ∉ dom (locations g) ∨ b ∉ dom (locations g) →
  run (connect_locations a b) g = (Returned tt, g).
Proof.
  intros Hab. unfold connect_locations. cbn.
  rewrite bool_decide_eq_false_2; [done | tauto].
Qed.

Lemma connect_locations_links g a b :
  a ∈ dom (locations g) → b ∈ dom (locations g) →
  ∃ g', run (connect_locations a b) g = (Returned tt, g') ∧ linked g' a b.
Proof.
  intros Ha Hb. rewrite connect_locations_known by done.
  apply elem_of_dom in Ha as Ha'. destruct Ha' as [la Hla].
  rewrite run_bind, (add_adjacent_present g a b la Hla).
  set (la' := with_adjacent (adjacent_locations la ∪ {[b]}) la).
  set (g1 := with_locations (<[a := la']> (locations g)) g).
  assert (∃ lb, locations g1 !! b = Some lb ∧
                (a = b → lb = la')) as (lb & Hlb & Hsame).
  { cbn. destruct (decide (a = b)) as [->|Hne].
    - exists la'. by rewrite lookup_insert_eq.
    - apply elem_of_dom in Hb as [lb Hlb]. exists lb.
      by rewrite lookup_insert_ne. }
  rewrite (add_adjacent_present g1 b a lb Hlb).
  eexists. split; [done |]. unfold linked. cbn.
  destruct (decide (a = b)) as [->|Hne].
  - rewrite (Hsame eq_refl). eexists _, _.
    rewrite lookup_insert_eq. repeat split; cbn; set_solver.
  - exists la', (with_adjacent (adjacent_locations lb ∪ {[a]}) lb).
    rewrite lookup_insert_ne, lookup_insert_eq by done.
    rewrite lookup_insert_eq. repeat split; cbn; set_solver.
Qed.

Lemma connect_locations_linked g a b :
  linked g a b → run (connect_locations a b) g = (Returned tt, g).
Proof.
  intros (la & lb & Hla & Hlb & Hb & Ha).
  rewrite connect_locations_known by (apply elem_of_dom; eauto).
  rewrite run_bind, (add_adjacent_known g a b la) by done.
  by rewrite (add_adjacent_known g b a lb).
Qed.

Lemma linked_sym g a b : linked g a b → linked g b a.
Proof. intros (la & lb & ? & ? & ? & ?). by exists lb, la. Qed.

(** C7. [connect_locations(a, b)] always returns. When both names are in
    the map it leaves [b] in [a]'s adjacency set and [a] in [b]'s; calling
    it again, in either argument order, changes nothing; and when either
    name is missing from the map the call changes nothing at all. *)
Theorem connect_locations_symmetric_idempotent g a b :
  (a ∈ dom (locations g) → b ∈ dom (locations g) →
     ∃ g' la lb,
       run (connect_locations a b) g = (Returned tt, g') ∧
       locations g' !! a = Some la ∧ locations g' !! b = Some lb ∧
       b ∈ adjacent_locations la ∧ a ∈ adjacent_locations lb) ∧
  (let g' := (run (connect_locations a b) g).2 in
     run (connect_locations a b) g' = (Returned tt, g') ∧
     run (connect_locations b a) g' = (Returned tt, g')) ∧
  (a ∉ dom (locations g) ∨ b ∉ dom (locations g) →
     run (connect_locations a b) g = (Returned tt, g)).
Proof.
  split; [| split].
  - intros Ha Hb.
    destruct (connect_locations_links g a b Ha Hb)
      as (g' & Hrun & la & lb & Hla & Hlb & Hab & Hba).
    by exists g', la, lb.
  - destruct (decide (a ∈ dom (locations g) ∧ b ∈ dom (locations g)))
      as [[Ha Hb] | Hmissing].
    + destruct (connect_locations_links g a b Ha Hb) as (g' & -> & Hlinked).
      cbn. split.
      * by apply connect_locations_linked.
      * by apply connect_locations_linked, linked_sym.
    + assert (a ∉ dom (locations g) ∨ b ∉ dom (locations g)) as Hor.
      { destruct (decide (a ∈ dom (locations g))); [right | left]; tauto. }
      rewrite (connect_locations_unknown g a b Hor). cbn. split.
      * by apply connect_locations_unknown.
      * apply connect_locations_unknown. tauto.
  - apply connect_locations_unknown.
Qed.

(** ** Legal orders *)

Lemma for_each_getitem_known g (m : gmap string (Location coord)) (ns : list string) :
  Forall (λ n, n ∈ dom m) ns →
  run (for_each (λ n, getitem m n) ns) g =
    (Returned (omap (λ n, m !! n) ns), g).
Proof.
  induction 1 as [|n ns Hn _ IH]; [done |].
  apply elem_of_dom in Hn as [l Hl].
  cbn [for_each]. rewrite run_bind, (getitem_present _ _ l) by done.
  rewrite run_bind, IH. cbn. by rewrite Hl.
Qed.

Lemma get_adjacent_locations_run g l :
  run (get_adjacent_locations l) g = (Returned (adjacent_of g l), g).
Proof.
  unfold get_adjacent_locations. rewrite run_bind. cbn [get_self run].
  apply for_each_getitem_known.
  apply Forall_forall. by intros n [? _]%list_elem_of_filter.
Qed.

Lemma foldl_append_orders_to bot l (adjacent : list (Location coord)) acc :
  foldl (append_orders_to bot l) acc adjacent =
    acc ++ (order_towards bot l <$> adjacent).
Proof.
  revert acc. induction adjacent as [|a adjacent IH]; intros acc; cbn [foldl fmap].
  - by rewrite app_nil_r.
  - rewrite IH. rewrite fmap_cons, cons_middle, app_assoc. f_equal.
    unfold append_orders_to, order_towards.
    destruct (decide (owner a = Some bot)) as [Hown|Hother].
    + rewrite (bool_decide_eq_true_2 (owner a = Some bot)) by done.
      by rewrite (bool_decide_eq_false_2 (owner a ≠ Some bot))
        by (intros Hc; by apply Hc).
    + rewrite (bool_decide_eq_false_2 (owner a = Some bot)) by done.
      by rewrite (bool_decide_eq_true_2 (owner a ≠ Some bot)) by done.
Qed.

Lemma _get_orders_for_location_run g bot l :
  run (_get_orders_for_location bot l) g = (Returned (orders_of g bot l), g).
Proof.
  unfold _get_orders_for_location.
  rewrite run_bind, get_adjacent_locations_run. cbn [ret run mret M_ret].
  by rewrite foldl_append_orders_to.
Qed.

Lemma get_bot_locations_run g bot :
  run (get_bot_locations bot) g = (Returned (controlled_by g bot), g).
Proof. done. Qed.

Lemma get_legal_orders_run g bot :
  run (get_legal_orders bot) g =
    (Returned (foldl (file_orders g bot) ∅ (controlled_by g bot)), g).
Proof.
  unfold get_legal_orders. rewrite run_bind, get_bot_locations_run.
  generalize (∅ : gmap string (list (Order coord))).
  induction (controlled_by g bot) as [|l ls IH]; intros acc; [done |].
  cbn [for_loop foldl]. rewrite run_bind.
  unfold file_orders at 2.
  destruct (has_units l); cbn [negb].
  - rewrite run_bind, _get_orders_for_location_run. cbn. apply IH.
  - cbn. apply IH.
Qed.

Lemma elem_of_controlled_by g bot l :
  l ∈ controlled_by g bot ↔
    owner l = Some bot ∧ ∃ k, locations g !! k = Some l.
Proof.
  unfold controlled_by. rewrite list_elem_of_filter, list_elem_of_fmap.
  split.
  - intros [Hown [[k l'] [-> Hkl]]]. split; [done |].
    exists k. by apply elem_of_map_to_list.
  - intros [Hown [k Hk]]. split; [done |].
    exists (k, l). split; [done |]. by apply elem_of_map_to_list.
Qed.


Lemma file_orders_dom g bot ls acc n :
  n ∈ dom (foldl (file_orders g bot) acc ls) ↔
    n ∈ dom acc ∨ ∃ l, l ∈ ls ∧ name l = n ∧ has_units l = true.
Proof.
  revert acc. induction ls as [|a ls IH]; intros acc; cbn [foldl].
  - split; [by left |]. intros [? | (l & Hl & _)]; [done |].
    by apply not_elem_of_nil in Hl.
  - rewrite IH. unfold file_orders.
    destruct (has_units a) eqn:Ha.
    + rewrite dom_insert, elem_of_union, elem_of_singleton. split.
      * intros [[-> | Hacc] | (l & Hl & Hn & Hu)].
        -- right. exists a. split; [apply list_elem_of_here | done].
        -- by left.
        -- right. exists l. split; [by apply list_elem_of_further | done].
      * intros [Hacc | (l & Hl & Hn & Hu)]; [left; by right |].
        apply elem_of_cons in Hl as [-> | Hl]; [left; by left |].
        right. by exists l.
    + split.
      * intros [Hacc | (l & Hl & Hn & Hu)]; [by left |].
        right. exists l. split; [by apply list_elem_of_further | done].
      * intros [Hacc | (l & Hl & Hn & Hu)]; [by left |].
        apply elem_of_cons in Hl as [-> | Hl]; [congruence |].
        right. by exists l.
Qed.



Lemma known_neighbours_spec g l :
  NoDup (known_neighbours g l) ∧
  ∀ n, n ∈ known_neighbours g l ↔
         n ∈ adjacent_locations l ∧ n ∈ dom (locations g).
Proof.
  unfold known_neighbours. split.
  - apply NoDup_filter, NoDup_elements.
  - intros n. rewrite list_elem_of_filter, elem_of_elements. tauto.
Qed.

Lemma omap_lookup_known (m : gmap string (Location coord)) (ns : list string) :
  Forall (λ n, n ∈ dom m) ns →
  Forall2 (λ n l, m !! n = Some l) ns (omap (λ n, m !! n) ns).
Proof.
  induction 1 as [|n ns Hn _ IH]; [constructor |].
  apply elem_of_dom in Hn as [l Hl]. cbn. rewrite Hl. by constructor.
Qed.

Lemma adjacent_of_spec g l :
  Forall2 (λ n a, locations g !! n = Some a) (known_neighbours g l) (adjacent_of g l).
Proof.
  apply omap_lookup_known, Forall_forall.
  intros n Hn. by apply known_neighbours_spec in Hn as [_ ?].
Qed.

Lemma is_legal_order_run g bot order :
  run (is_legal_order bot order) g =
    (Returned
       (match foldl (file_orders g bot) ∅ (controlled_by g bot)
              !! name (location order) with
        | Some location_orders => bool_decide (order ∈ location_orders)
        | None => false
        end), g).
Proof.
  unfold is_legal_order. rewrite run_bind, get_legal_orders_run.
  set (legal := foldl (file_orders g bot) ∅ (controlled_by g bot)).
  destruct (legal !! name (location order)) as [os|] eqn:Hos.
  - rewrite bool_decide_eq_false_2.
    + by rewrite run_bind, (getitem_present _ _ os).
    + intros Hnot. apply Hnot, elem_of_dom. eauto.
  - rewrite bool_decide_eq_true_2; [done |]. by apply not_elem_of_dom.
Qed.

(** C9. [get_legal_orders] and [is_legal_order] return for every game
    state, bot and order: neither raises. Both hand back the game state
    exactly as they received it, so every location (owner, units, supply,
    crowns, adjacency, fortification) and the stats, orders, turn counters
    and history are what they were. When the bot holds no location with a
    positive unit total the mapping is empty, and [is_legal_order] answers
    [True] only for an order found in the list filed under its origin's
    name, [False] when there is no such list. *)
Theorem legal_order_queries_return_and_preserve g bot order :
  (∃ legal, run (get_legal_orders bot) g = (Returned legal, g) ∧
     ((∀ k l, locations g !! k = Some l → owner l = Some bot →
              get_total_units l ≤ 0) → legal = ∅) ∧
     ∃ b, run (is_legal_order bot order) g = (Returned b, g) ∧
          (legal !! name (location order) = None → b = false) ∧
          (b = true ↔ ∃ location_orders,
                        legal !! name (location order) = Some location_orders ∧
                        order ∈ location_orders)).
Proof.
  eexists. split; [apply get_legal_orders_run |]. split.
  - intros Hnone. apply map_eq. intros n. rewrite lookup_empty.
    apply not_elem_of_dom. rewrite file_orders_dom.
    intros [Hempty | (l & Hl & _ & Hu)].
    + by rewrite dom_empty in Hempty; apply not_elem_of_empty in Hempty.
    + apply elem_of_controlled_by in Hl as [Hown [k Hk]].
      apply has_units_true in Hu. specialize (Hnone k l Hk Hown). lia.
  - eexists. split; [apply is_legal_order_run |].
    destruct (foldl (file_orders g bot) ∅ (controlled_by g bot)
                !! name (location order)) as [os|]; split; try done.
    + rewrite bool_decide_eq_true. split.
      * intros Hin. by exists os.
      * by intros (os' & [= <-] & Hin).
    + split; [done |]. by intros (os' & ? & _).
Qed.

Lemma file_orders_lookup_Some g bot ls acc n os :
  foldl (file_orders g bot) acc ls !! n = Some os →
  acc !! n = Some os ∨
  ∃ l, l ∈ ls ∧ name l = n ∧ has_units l = true ∧ os = orders_of g bot l.
Proof.
  revert acc. induction ls as [|a ls IH]; intros acc; cbn [foldl]; [by left |].
  intros [Hacc | (l & Hl & Hrest)]%IH.
  - unfold file_orders in Hacc. destruct (has_units a) eqn:Ha; [| by left].
    rewrite lookup_insert in Hacc. case_decide as Hn; [| by left].
    injection Hacc as <-. right. exists a.
    split; [apply list_elem_of_here | done].
  - right. exists l. split; [by apply list_elem_of_further | done].
Qed.



(** ** Registration by name *)

Lemma keyed_by_name_unique g : keyed_by_name g → names_unique g.
Proof.
  intros Hkeyed k1 k2 l1 l2 H1 H2 Hname.
  by rewrite <- (Hkeyed k1 l1 H1), <- (Hkeyed k2 l2 H2).
Qed.

Lemma new_game_state_keyed : keyed_by_name (new_game_state (coord := coord)).
Proof. intros k l. cbn. by rewrite lookup_empty. Qed.

Lemma add_location_keyed g l :
  keyed_by_name g → keyed_by_name (run (add_location l) g).2.
Proof.
  intros Hkeyed k l'. cbn. rewrite lookup_insert. case_decide.
  - by intros [= <-].
  - apply Hkeyed.
Qed.

Lemma add_adjacent_keyed g key other :
  keyed_by_name g → keyed_by_name (run (add_adjacent key other) g).2.
Proof.
  intros Hkeyed. destruct (locations g !! key) as [l|] eqn:Hkey.
  - rewrite (add_adjacent_present g key other l Hkey).
    intros k l'. cbn. rewrite lookup_insert. case_decide.
    + intros [= <-]. cbn. subst. by apply Hkeyed.
    + apply Hkeyed.
  - unfold add_adjacent, getitem. cbn. by rewrite Hkey.
Qed.

Lemma connect_locations_keyed g a b :
  keyed_by_name g → keyed_by_name (run (connect_locations a b) g).2.
Proof.
  intros Hkeyed.
  destruct (decide (a ∈ dom (locations g))) as [Ha|Ha];
    [destruct (decide (b ∈ dom (locations g))) as [Hb|Hb] |].
  - rewrite connect_locations_known, run_bind by done.
    pose proof (add_adjacent_keyed g a b Hkeyed) as Hfirst.
    destruct (run (add_adjacent a b) g) as [[[]|e] g1]; [| done].
    by apply add_adjacent_keyed.
  - rewrite connect_locations_unknown; [done | by right].
  - rewrite connect_locations_unknown; [done | by left].
Qed.

End Properties.

(** * Further properties of the code *)

Section MoreProperties.

#[local] Set Warnings "-clear-no-such-hyp".

Context {coord : Type} `{!EqDecision coord}.
Implicit Types (l : Location coord) (g : GameState coord).

(** ** Unit totals under the mutators *)

Lemma foldl_add_shift (vs : list Z) (a : Z) :
  foldl Z.add a vs = a + foldl Z.add 0 vs.
Proof.
  revert a. induction vs as [|v vs IH]; intros a; cbn [foldl]; [lia |].
  rewrite (IH (a + v)), (IH (0 + v)). lia.
Qed.

Lemma py_sum_cons (v : Z) (vs : list Z) : py_sum (v :: vs) = v + py_sum vs.
Proof. unfold py_sum. cbn. by rewrite foldl_add_shift. Qed.

Lemma py_sum_Permutation (vs ws : list Z) : vs ≡ₚ ws → py_sum vs = py_sum ws.
Proof.
  induction 1 as [| v vs ws _ IH | v w vs | vs ws us _ IH1 _ IH2].
  - done.
  - by rewrite !py_sum_cons, IH.
  - rewrite !py_sum_cons. lia.
  - by rewrite IH1.
Qed.

Lemma py_sum_values_insert (u : gmap UnitType Z) (k : UnitType) (v : Z) :
  py_sum (snd <$> map_to_list (<[k := v]> u)) =
    py_sum (snd <$> map_to_list u) - default 0 (u !! k) + v.
Proof.
  destruct (u !! k) as [old|] eqn:Hk; cbn.
  - rewrite <- (insert_delete_id u k old Hk) at 2.
    rewrite <- (insert_delete_eq u k v).
    rewrite !(py_sum_Permutation _ _
                (fmap_Permutation snd _ _
                   (map_to_list_insert (delete k u) k _ (lookup_delete_eq u k)))).
    rewrite !fmap_cons, !py_sum_cons. cbn. lia.
  - rewrite (py_sum_Permutation _ _
               (fmap_Permutation snd _ _ (map_to_list_insert u k v Hk))).
    rewrite fmap_cons, py_sum_cons. cbn. lia.
Qed.

Lemma get_total_units_insert l l' (k : UnitType) (v : Z) :
  units l' = <[k := v]> (units l) →
  get_total_units l' = get_total_units l - units_get l k + v.
Proof.
  intros Hunits. unfold get_total_units, units_get.
  by rewrite Hunits, py_sum_values_insert.
Qed.

Lemma get_total_units_with_units l (k : UnitType) (v : Z) :
  get_total_units (with_units (<[k := v]> (units l)) l) =
    get_total_units l - units_get l k + v.
Proof. by apply get_total_units_insert. Qed.

(** What a returning [add_units] call has done. *)
Lemma add_units_returned l unit_type count new_owner b l' :
  run (add_units unit_type count new_owner) l = (Returned b, l') →
  b = true ∧
  units l' = <[unit_type := units_get l unit_type + count]> (units l) ∧
  (owner l' = owner l ∨ owner l = None ∧ owner l' = new_owner) ∧
  (∀ o, new_owner = Some o → owner l' = Some o).
Proof.
  unfold add_units. cbn.
  destruct new_owner as [o|]; [destruct (owner l) as [cur|] eqn:Hcur |]; cbn.
  - case_bool_decide as Hsame; cbn; [discriminate |].
    assert (cur = o) as -> by (by destruct (decide (cur = o)); [| exfalso; auto]).
    intros [= <- <-]. cbn. rewrite ?Hcur.
    split; [done |]. split; [done |]. split; [by left |]. by intros o' [= <-].
  - intros [= <- <-]. cbn.
    split; [done |]. split; [done |]. split; [by right |]. by intros o' [= <-].
  - intros [= <- <-]. cbn.
    split; [done |]. split; [done |]. split; [by left |]. done.
Qed.

(** The three ways a [remove_units] call can end. *)
Lemma remove_units_outcomes l unit_type count :
  (run (remove_units unit_type count) l = (Returned false, l) ∧
   units_get l unit_type < count) ∨
  (run (remove_units unit_type count) l = (Raised KeyError, l) ∧
   units l !! unit_type = None ∧ count ≤ 0) ∨
  (∃ v, units l !! unit_type = Some v ∧ v >= count ∧
        run (remove_units unit_type count) l =
          (Returned true, with_units (<[unit_type := v - count]> (units l)) l)).
Proof.
  destruct (units l !! unit_type) as [v|] eqn:Hv.
  - destruct (remove_units_checked l unit_type count v Hv) as [Hok Hno].
    destruct (decide (v >= count)) as [Hge|Hlt].
    + right. right. exists v. auto.
    + left. split; [apply Hno; lia |]. unfold units_get. rewrite Hv. cbn. lia.
  - destruct (remove_units_no_entry l unit_type count Hv) as [Hraise Hno].
    destruct (decide (count ≤ 0)).
    + right. left. auto.
    + left. split; [apply Hno; lia |]. unfold units_get. rewrite Hv. cbn. lia.
Qed.

(** X1. The unit total follows the mutators: a returning [add_units] call
    raises [get_total_units] by exactly [count], and a [remove_units] call
    that returns [True] lowers it by exactly [count]; a [remove_units]
    call that returns [False] or raises leaves the location as it was. *)
Theorem unit_total_follows_mutators l unit_type count :
  (∀ new_owner b l',
     run (add_units unit_type count new_owner) l = (Returned b, l') →
     get_total_units l' = get_total_units l + count) ∧
  (∀ l', run (remove_units unit_type count) l = (Returned true, l') →
     get_total_units l' = get_total_units l - count) ∧
  (∀ r l', run (remove_units unit_type count) l = (r, l') →
     r ≠ Returned true → l' = l).
Proof.
  split; [| split].
  - intros new_owner b l' (_ & Hunits & _)%add_units_returned.
    rewrite (get_total_units_insert l l' _ _ Hunits). lia.
  - intros l' Hrun.
    destruct (remove_units_outcomes l unit_type count)
      as [[Hr _] | [[Hr _] | (v & Hv & Hge & Hr)]];
      rewrite Hr in Hrun; try discriminate.
    injection Hrun as <-.
    rewrite get_total_units_with_units.
    unfold units_get. rewrite Hv. cbn. lia.
  - intros r l' Hrun Hr.
    destruct (remove_units_outcomes l unit_type count)
      as [[Hrun' _] | [[Hrun' _] | (v & Hv & Hge & Hrun')]];
      rewrite Hrun' in Hrun; injection Hrun as <- <-; done.
Qed.

(** X2. Adding and then removing the same number of units of a kind whose
    count is not negative undoes the addition: [remove_units] returns
    [True], the kind is back at its count (an entry of 0 staying behind
    where there was none), the other kinds and the unit total are what
    they were before both calls, and the owner is as [add_units] left it. *)
Theorem add_then_remove_units_restores l unit_type count new_owner b l1 :
  0 ≤ units_get l unit_type →
  run (add_units unit_type count new_owner) l = (Returned b, l1) →
  ∃ l2, run (remove_units unit_type count) l1 = (Returned true, l2) ∧
        units l2 = <[unit_type := units_get l unit_type]> (units l) ∧
        (is_Some (units l !! unit_type) → units l2 = units l) ∧
        get_total_units l2 = get_total_units l ∧
        owner l2 = owner l1.
Proof.
  intros Hcount (_ & Hunits & _)%add_units_returned.
  assert (units l1 !! unit_type = Some (units_get l unit_type + count)) as Hentry.
  { by rewrite Hunits, lookup_insert_eq. }
  destruct (remove_units_checked l1 unit_type count _ Hentry) as [Hok _].
  rewrite Hok by lia. eexists. split; [done |]. cbn.
  assert (<[unit_type := units_get l unit_type + count - count]> (units l1) =
          <[unit_type := units_get l unit_type]> (units l)) as Hback.
  { rewrite Hunits, insert_insert_eq. f_equal. lia. }
  split; [done |]. split; [| split; [| done]].
  - intros [v Hv]. rewrite Hback. unfold units_get. rewrite Hv. cbn.
    by apply insert_id.
  - rewrite (get_total_units_insert l
               (with_units (<[unit_type := units_get l unit_type + count - count]>
                              (units l1)) l1)
               unit_type (units_get l unit_type) Hback).
    lia.
Qed.

(** X3. Spending supply and putting it back: from a location within its
    cap, [remove_supply(a)] followed by [add_supply(a)] with
    [0 <= a <= supply] returns [True] twice and restores the location. *)
Theorem remove_then_add_supply_restores l amount :
  supply l ≤ max_supply l → 0 ≤ amount ≤ supply l →
  ∃ l1, run (remove_supply amount) l = (Returned true, l1) ∧
        run (add_supply amount) l1 = (Returned true, l).
Proof.
  intros Hcap Hamount.
  destruct (remove_supply_checked l amount) as [Hok _].
  rewrite Hok by lia. eexists. split; [done |].
  unfold add_supply. cbn.
  rewrite bool_decide_eq_false_2 by lia. cbn.
  replace (supply l - amount + amount) with (supply l) by lia.
  by destruct l.
Qed.

Lemma perform_keeps_owner l op o :
  owner l = Some o → is_set_owner op = false →
  owner (run (perform op) l).2 = Some o.
Proof.
  intros Howner Hop.
  destruct op as [k c o' | k c | a | a | a | a | o']; cbn in Hop;
    cbn [perform]; [| | | | | | discriminate].
  - destruct (run (add_units k c o') l) as [[b|e] l'] eqn:Hrun; cbn.
    + apply add_units_returned in Hrun as (_ & _ & [Hsame | [Hnone _]] & _);
        congruence.
    + destruct (add_units_outcomes l k c o') as [Hraise | (l0 & _ & Hret)];
        congruence.
  - destruct (remove_units_outcomes l k c)
      as [[-> _] | [[-> _] | (v & _ & _ & ->)]]; done.
  - unfold add_supply. cbn. by case_bool_decide.
  - unfold remove_supply. cbn. by case_bool_decide.
  - done.
  - unfold remove_crowns. cbn. by case_bool_decide.
Qed.

(** X4. The first owner wins. After a returning [add_units] call with an
    explicit owner the location belongs to that owner, and it goes on
    belonging to that owner through any sequence of [add_units],
    [remove_units], [add_supply], [remove_supply], [add_crowns] and
    [remove_crowns] calls: of the mutators only [set_owner] can change
    the owner. After any such sequence an [add_units] call in another
    owner's name raises [ValueError] and changes nothing, whatever kind
    and count it asks for. *)
Theorem add_units_first_owner_wins l unit_type count o b l1 ops :
  run (add_units unit_type count (Some o)) l = (Returned b, l1) →
  Forall (λ op, is_set_owner op = false) ops →
  owner (perform_all ops l1) = Some o ∧
  ∀ unit_type' count' o', o' ≠ o →
    run (add_units unit_type' count' (Some o')) (perform_all ops l1) =
      (Raised ValueError, perform_all ops l1).
Proof.
  intros (_ & _ & _ & Howner)%add_units_returned Hops.
  specialize (Howner o eq_refl).
  assert (owner (perform_all ops l1) = Some o) as Hkept.
  { revert l1 Howner. induction Hops as [|op ops Hop _ IH]; intros l1 Howner;
      [done |].
    unfold perform_all. cbn [foldl]. apply IH.
    by apply perform_keeps_owner. }
  split; [done |].
  intros k' c' o' Hne. unfold add_units. cbn. rewrite Hkept.
  by rewrite bool_decide_eq_true_2 by congruence.
Qed.

(** ** Having units *)

Lemma py_sum_positive_iff (vs : list Z) :
  Forall (λ v, 0 ≤ v) vs → (0 < py_sum vs ↔ Exists (λ v, 0 < v) vs).
Proof.
  induction 1 as [|v vs Hv Hvs IH].
  - split; [by vm_compute | by intros ?%Exists_nil].
  - rewrite py_sum_cons, Exists_cons.
    assert (0 ≤ py_sum vs) as Hsum.
    { unfold py_sum. by apply foldl_add_non_negative. }
    split.
    + intros Hpos. destruct (decide (0 < v)); [by left |].
      right. apply IH. lia.
    + intros [Hpos | Hpos%IH]; lia.
Qed.

(** X5. For a location whose unit counts are all non-negative, [has_units]
    says exactly that some kind has a positive count. *)
Theorem has_units_iff_some_kind_positive l :
  (∀ k n, units l !! k = Some n → 0 ≤ n) →
  (has_units l = true ↔ ∃ k n, units l !! k = Some n ∧ 0 < n).
Proof.
  intros Hunits. rewrite has_units_true. unfold get_total_units.
  assert (Forall (λ v, 0 ≤ v) (snd <$> map_to_list (units l))) as Hall.
  { apply Forall_forall. intros v [[k n] [-> Hkn]]%list_elem_of_fmap.
    apply elem_of_map_to_list in Hkn. by eapply Hunits. }
  rewrite Z.gt_lt_iff, (py_sum_positive_iff _ Hall), Exists_exists. split.
  - intros (v & [[k n] [-> Hkn]]%list_elem_of_fmap & Hpos).
    exists k, n. by apply elem_of_map_to_list in Hkn.
  - intros (k & n & Hkn & Hpos). exists n. split; [| done].
    apply list_elem_of_fmap. exists (k, n).
    split; [done |]. by apply elem_of_map_to_list.
Qed.

(** X6. Clearing a location for conquest. When all the units of a location
    are of one kind, [set_owner] is refused while that count is positive,
    and once [remove_units] has taken exactly that count away [set_owner]
    succeeds for any new owner. *)
Theorem clear_then_set_owner l unit_type v new_owner :
  units l !! unit_type = Some v → get_total_units l = v →
  (0 < v → run (set_owner new_owner) l = (Raised ValueError, l)) ∧
  ∃ l1, run (remove_units unit_type v) l = (Returned true, l1) ∧
        get_total_units l1 = 0 ∧
        run (set_owner new_owner) l1 = (Returned true, with_owner new_owner l1).
Proof.
  intros Hv Htotal. split.
  - intros Hpos. unfold set_owner. cbn.
    by rewrite (proj2 (has_units_true l)) by lia.
  - destruct (remove_units_checked l unit_type v v Hv) as [Hok _].
    rewrite Hok by lia. eexists. split; [done |].
    assert (get_total_units
              (with_units (<[unit_type := v - v]> (units l)) l) = 0) as Hzero.
    { rewrite get_total_units_with_units.
      unfold units_get. rewrite Hv. cbn. lia. }
    split; [done |]. unfold set_owner. cbn [run mbind M_bind bind get_self].
    by rewrite (proj2 (has_units_false _)) by lia.
Qed.

(** X7. Fortification and defence. [set_fortification] changes nothing but
    the fortification, and the defence bonus read afterwards is 0 for
    [NONE], 1 for [CASTLE] and 2 for [STRONGHOLD]; the bonus of any
    location lies between 0 and 2. *)
Theorem set_fortification_sets_defense_bonus l fort_type :
  run (set_fortification fort_type) l =
    (Returned tt, with_fortification fort_type l) ∧
  get_defense_bonus (with_fortification fort_type l) =
    match fort_type with NONE => 0 | CASTLE => 1 | STRONGHOLD => 2 end ∧
  0 ≤ get_defense_bonus l ≤ 2.
Proof.
  split; [done |]. split.
  - by destruct fort_type.
  - unfold get_defense_bonus. repeat case_decide; lia.
Qed.

(** ** Assembling the map *)

(** X8. [add_location] files a location under its own name and leaves
    every other entry and every other part of the game state alone; a
    location already filed under that name is replaced without notice, so
    of two registrations with one name only the later survives. *)
Theorem add_location_registers_or_replaces g loc :
  run (add_location loc) g =
    (Returned tt, with_locations (<[name loc := loc]> (locations g)) g) ∧
  locations (run (add_location loc) g).2 !! name loc = Some loc ∧
  (∀ k, k ≠ name loc →
        locations (run (add_location loc) g).2 !! k = locations g !! k) ∧
  (∀ loc', name loc' = name loc →
        run (add_location loc) (run (add_location loc') g).2 =
        run (add_location loc) g).
Proof.
  split; [done |]. split; [apply lookup_insert_eq |]. split.
  - intros k Hk. cbn. by rewrite lookup_insert_ne.
  - intros loc' Hname. cbn. rewrite Hname. unfold with_locations. cbn.
    by rewrite insert_insert_eq.
Qed.

(** X9. Every game state put together from the empty one by
    [add_location] and [connect_locations] calls keeps each location
    under its own name; in particular no two of its locations share a
    name. *)
Theorem assembled_maps_are_keyed_by_name g :
  map_reachable g → keyed_by_name g ∧ names_unique g.
Proof.
  intros Hreach.
  assert (keyed_by_name g) as Hkeyed.
  { induction Hreach as [|g op _ IH]; [apply new_game_state_keyed |].
    destruct op as [loc | a b]; cbn [perform_map].
    - by apply add_location_keyed.
    - by apply connect_locations_keyed. }
  split; [done |]. by apply keyed_by_name_unique.
Qed.

(** The state [connect_locations] leaves when both names are known. *)
Lemma connect_locations_known_run g a b la lb :
  locations g !! a = Some la → locations g !! b = Some lb →
  let la' := with_adjacent (adjacent_locations la ∪ {[b]}) la in
  let lb1 := if decide (a = b) then la' else lb in
  run (connect_locations a b) g =
    (Returned tt,
     with_locations
       (<[b := with_adjacent (adjacent_locations lb1 ∪ {[a]}) lb1]>
          (<[a := la']> (locations g))) g).
Proof.
  intros Hla Hlb la' lb1.
  rewrite connect_locations_known by (apply elem_of_dom; eauto).
  rewrite run_bind, (add_adjacent_present g a b la Hla).
  rewrite (add_adjacent_present _ b a lb1); [done |].
  cbn. unfold lb1. destruct (decide (a = b)) as [->|Hne].
  - by rewrite lookup_insert_eq.
  - by rewrite lookup_insert_ne.
Qed.

(** X10. [connect_locations] touches adjacency sets only. The set of
    registered names stays the same; each location keeps its name, owner,
    units, supply, crowns and fortification; an adjacency set never loses
    a name and gains at most the two arguments; and all other parts of
    the game state are left exactly as they were. *)
Theorem connect_locations_only_grows_adjacency g a b :
  let g' := (run (connect_locations a b) g).2 in
  dom (locations g') = dom (locations g) ∧
  (∀ k l, locations g !! k = Some l →
     ∃ l', locations g' !! k = Some l' ∧
           with_adjacent (adjacent_locations l) l' = l ∧
           adjacent_locations l ⊆ adjacent_locations l' ∧
           adjacent_locations l' ⊆ adjacent_locations l ∪ {[a]} ∪ {[b]}) ∧
  with_locations (locations g) g' = g.
Proof.
  destruct (locations g !! a) as [la|] eqn:Hla;
    [destruct (locations g !! b) as [lb|] eqn:Hlb |].
  - rewrite (connect_locations_known_run g a b la lb Hla Hlb). cbn.
    split; [| split].
    + rewrite !dom_insert_L.
      apply (elem_of_dom_2 (locations g)) in Hla, Hlb. set_solver.
    + intros k l Hk.
      destruct (decide (k = b)) as [->|Hkb].
      * rewrite lookup_insert_eq. eexists. split; [done |].
        destruct (decide (a = b)) as [->|Hne]; cbn.
        -- assert (l = la) as -> by congruence.
           split; [by destruct la |]. set_solver.
        -- assert (l = lb) as -> by congruence.
           split; [by destruct lb |]. set_solver.
      * rewrite lookup_insert_ne by done.
        destruct (decide (k = a)) as [->|Hka].
        -- rewrite lookup_insert_eq. eexists. split; [done |]. cbn.
           assert (l = la) as -> by congruence.
           split; [by destruct la |]. set_solver.
        -- rewrite lookup_insert_ne by done. exists l.
           split; [done |]. split; [by destruct l |]. set_solver.
    + by destruct g.
  - rewrite connect_locations_unknown
      by (right; by apply not_elem_of_dom). cbn.
    split; [done |]. split; [| by destruct g].
    intros k l Hk. exists l. split; [done |].
    split; [by destruct l |]. set_solver.
  - rewrite connect_locations_unknown
      by (left; by apply not_elem_of_dom). cbn.
    split; [done |]. split; [| by destruct g].
    intros k l Hk. exists l. split; [done |].
    split; [by destruct l |]. set_solver.
Qed.

(** Symmetry survives a [connect_locations] call on two known names. *)
Lemma connect_locations_keeps_symmetry g a b la lb :
  locations g !! a = Some la → locations g !! b = Some lb →
  adjacency_symmetric g →
  adjacency_symmetric (run (connect_locations a b) g).2.
Proof.
  intros Hla Hlb Hsym.
  rewrite (connect_locations_known_run g a b la lb Hla Hlb).
  intros x y lx Hx Hy. cbn in Hx |- *.
  (* the entries of [x] and [y] after the call, in terms of those before *)
  assert (∃ lx0, locations g !! x = Some lx0 ∧
                 (y ∈ adjacent_locations lx0 ∨ (x = a ∧ y = b) ∨ (x = b ∧ y = a)))
    as (lx0 & Hx0 & Hwhy).
  { destruct (decide (x = b)) as [->|Hxb].
    - rewrite lookup_insert_eq in Hx. injection Hx as <-.
      destruct (decide (a = b)) as [->|Hne]; cbn in Hy.
      + exists la. split; [done |]. set_solver.
      + exists lb. split; [done |]. set_solver.
    - rewrite lookup_insert_ne in Hx by done.
      destruct (decide (x = a)) as [->|Hxa].
      + rewrite lookup_insert_eq in Hx. injection Hx as <-. cbn in Hy.
        exists la. split; [done |]. set_solver.
      + rewrite lookup_insert_ne in Hx by done.
        exists lx. split; [done |]. by left. }
  assert (∀ z lz0, locations g !! z = Some lz0 →
            ∃ lz, <[b := with_adjacent
                          (adjacent_locations
                             (if decide (a = b)
                              then with_adjacent (adjacent_locations la ∪ {[b]}) la
                              else lb) ∪ {[a]})
                          (if decide (a = b)
                           then with_adjacent (adjacent_locations la ∪ {[b]}) la
                           else lb)]>
                    (<[a := with_adjacent (adjacent_locations la ∪ {[b]}) la]>
                       (locations g)) !! z = Some lz ∧
                  adjacent_locations lz0 ⊆ adjacent_locations lz ∧
                  (z = a → b ∈ adjacent_locations lz) ∧
                  (z = b → a ∈ adjacent_locations lz)) as Hafter.
  { intros z lz0 Hz.
    destruct (decide (z = b)) as [->|Hzb].
    - rewrite lookup_insert_eq. eexists. split; [done |].
      destruct (decide (a = b)) as [->|Hne]; cbn.
      + assert (lz0 = la) as -> by congruence. set_solver.
      + assert (lz0 = lb) as -> by congruence. set_solver.
    - rewrite lookup_insert_ne by done.
      destruct (decide (z = a)) as [->|Hza].
      + rewrite lookup_insert_eq. eexists. split; [done |]. cbn.
        assert (lz0 = la) as -> by congruence. set_solver.
      + rewrite lookup_insert_ne by done. exists lz0. set_solver. }
  destruct Hwhy as [Hold | [[-> ->] | [-> ->]]].
  - destruct (Hsym x y lx0 Hx0 Hold) as (ly0 & Hy0 & Hback).
    destruct (Hafter y ly0 Hy0) as (ly & Hly & Hsub & _).
    exists ly. split; [done |]. set_solver.
  - destruct (Hafter b lb Hlb) as (ly & Hly & _ & _ & Hb).
    exists ly. split; [done |]. by apply Hb.
  - destruct (Hafter a la Hla) as (ly & Hly & _ & Ha & _).
    exists ly. split; [done |]. by apply Ha.
Qed.

(** X11. Adjacency is symmetric in every freshly assembled map. When the
    map has been put together from the empty state by registering
    locations as the constructor made them (each with its own, empty
    adjacency set, under a name not yet in use) and by
    [connect_locations] calls, every neighbour a location lists is a
    registered location that lists it back. *)
Theorem freshly_assembled_maps_are_symmetric g :
  freshly_assembled g → adjacency_symmetric g.
Proof.
  induction 1 as [| g loc _ IH Hempty Hfresh | g a b _ IH].
  - intros a b la Hla. cbn in Hla. by rewrite lookup_empty in Hla.
  - intros x y lx. cbn.
    rewrite lookup_insert. case_decide as Hx.
    + intros [= <-]. rewrite Hempty. by intros ?%not_elem_of_empty.
    + intros Hlx Hy. destruct (IH x y lx Hlx Hy) as (ly & Hly & Hback).
      exists ly. split; [| done]. rewrite lookup_insert_ne; [done |].
      intros <-. apply Hfresh. by apply elem_of_dom_2 in Hly.
  - destruct (locations g !! a) as [la|] eqn:Hla;
      [destruct (locations g !! b) as [lb|] eqn:Hlb |];
      [| rewrite connect_locations_unknown
           by (right; by apply not_elem_of_dom); done
       | rewrite connect_locations_unknown
           by (left; by apply not_elem_of_dom); done].
    by apply (connect_locations_keeps_symmetry g a b la lb).
Qed.

(** ** Reading the map *)

Lemma elem_of_adjacent_of g l x :
  x ∈ adjacent_of g l ↔
    ∃ n, n ∈ adjacent_locations l ∧ locations g !! n = Some x.
Proof.
  unfold adjacent_of. rewrite list_elem_of_omap. split.
  - intros (n & [? ?]%known_neighbours_spec & Hn). eauto.
  - intros (n & Hn & Hx). exists n. split; [| done].
    apply known_neighbours_spec. split; [done |]. by apply elem_of_dom_2 in Hx.
Qed.

(** X12. [get_adjacent_locations] never raises and changes nothing: it
    returns the locations filed under those adjacency names that the map
    knows, one per such name, and passes over names the map does not
    know. *)
Theorem get_adjacent_locations_skips_unknown_names g l :
  ∃ adjacent,
    run (get_adjacent_locations l) g = (Returned adjacent, g) ∧
    (∀ x, x ∈ adjacent ↔
            ∃ n, n ∈ adjacent_locations l ∧ locations g !! n = Some x) ∧
    length adjacent = size (adjacent_locations l ∩ dom (locations g)) ∧
    (adjacent_locations l ∩ dom (locations g) = ∅ → adjacent = []).
Proof.
  exists (adjacent_of g l). split; [apply get_adjacent_locations_run |].
  split; [apply elem_of_adjacent_of |].
  assert (length (adjacent_of g l) =
          size (adjacent_locations l ∩ dom (locations g))) as Hlen.
  { rewrite <- (Forall2_length _ _ _ (adjacent_of_spec g l)).
    destruct (known_neighbours_spec g l) as [Hnodup Hin].
    rewrite <- (size_list_to_set (C := gset string)) by done.
    f_equal. apply set_eq. intros n.
    rewrite elem_of_list_to_set, Hin. set_solver. }
  split; [done |].
  intros Hnone. rewrite Hnone, size_empty in Hlen.
  by apply nil_length_inv.
Qed.

(** X13. Connecting makes neighbours. After [connect_locations(a, b)] on
    two known names, [get_adjacent_locations] of the location under [a]
    returns the location under [b] among its results, and the other way
    round. *)
Theorem connected_locations_are_adjacent g a b :
  a ∈ dom (locations g) → b ∈ dom (locations g) →
  ∃ g' la lb adjacent_a adjacent_b,
    run (connect_locations a b) g = (Returned tt, g') ∧
    locations g' !! a = Some la ∧ locations g' !! b = Some lb ∧
    run (get_adjacent_locations la) g' = (Returned adjacent_a, g') ∧
    lb ∈ adjacent_a ∧
    run (get_adjacent_locations lb) g' = (Returned adjacent_b, g') ∧
    la ∈ adjacent_b.
Proof.
  intros Ha Hb.
  destruct (connect_locations_links g a b Ha Hb)
    as (g' & Hrun & la & lb & Hla & Hlb & Hab & Hba).
  exists g', la, lb, (adjacent_of g' la), (adjacent_of g' lb).
  split; [done |]. split; [done |]. split; [done |].
  split; [apply get_adjacent_locations_run |].
  split; [apply elem_of_adjacent_of; eauto |].
  split; [apply get_adjacent_locations_run |].
  apply elem_of_adjacent_of; eauto.
Qed.

(** X14. [get_bot_locations] never raises and changes nothing. It returns
    the locations of the map whose owner is the given bot, so a location
    is never listed for two different bots and an unowned location is
    listed for none; the list is no longer than the map. *)
Theorem get_bot_locations_by_owner g bot :
  ∃ owned,
    run (get_bot_locations bot) g = (Returned owned, g) ∧
    (∀ l, l ∈ owned ↔ owner l = Some bot ∧ ∃ k, locations g !! k = Some l) ∧
    (∀ bot' owned' l,
       run (get_bot_locations bot') g = (Returned owned', g) →
       l ∈ owned → l ∈ owned' → bot' = bot) ∧
    (length owned ≤ size (locations g))%nat.
Proof.
  exists (controlled_by g bot). split; [done |].
  split; [apply elem_of_controlled_by |]. split.
  - intros bot' owned' l [= <-] [Hown _]%elem_of_controlled_by
      [Hown' _]%elem_of_controlled_by. congruence.
  - unfold controlled_by.
    etrans; [apply length_filter |].
    by rewrite length_fmap, length_map_to_list.
Qed.

Lemma foldl_add_totals (ls : list (Location coord)) (a : Z) :
  foldl (λ total loc, total + get_total_units loc) a ls =
    a + py_sum (get_total_units <$> ls).
Proof.
  revert a. induction ls as [|l ls IH]; intros a; cbn [foldl fmap list_fmap].
  - unfold py_sum. cbn. lia.
  - rewrite IH, py_sum_cons. lia.
Qed.

Lemma get_bot_units_run g bot :
  run (get_bot_units bot) g =
    (Returned (py_sum (get_total_units <$> controlled_by g bot)), g).
Proof.
  unfold get_bot_units. rewrite run_bind, get_bot_locations_run. cbn.
  by rewrite foldl_add_totals.
Qed.

Lemma py_sum_bounds_elements (vs : list Z) (v : Z) :
  Forall (λ w, 0 ≤ w) vs → v ∈ vs → 0 ≤ py_sum vs ∧ v ≤ py_sum vs.
Proof.
  intros Hvs Hv.
  assert (∀ ws, Forall (λ w, 0 ≤ w) ws → 0 ≤ py_sum ws) as Hnn.
  { intros ws Hws. unfold py_sum. by apply foldl_add_non_negative. }
  split; [by apply Hnn |].
  induction Hvs as [|w vs Hw Hvs IH]; [by apply not_elem_of_nil in Hv |].
  rewrite py_sum_cons. specialize (Hnn vs Hvs).
  apply elem_of_cons in Hv as [-> | Hv]; [lia |].
  specialize (IH Hv). lia.
Qed.

(** X15. [get_bot_units] never raises and changes nothing. It is 0 for a
    bot that owns no location; and when the unit totals of the bot's
    locations are non-negative it is non-negative and at least the total
    of each single location the bot owns. *)
Theorem get_bot_units_covers_owned_locations g bot :
  ∃ n, run (get_bot_units bot) g = (Returned n, g) ∧
    ((∀ k l, locations g !! k = Some l → owner l ≠ Some bot) → n = 0) ∧
    ((∀ k l, locations g !! k = Some l → owner l = Some bot →
             0 ≤ get_total_units l) →
     0 ≤ n ∧
     ∀ k l, locations g !! k = Some l → owner l = Some bot →
            get_total_units l ≤ n).
Proof.
  eexists. split; [apply get_bot_units_run |]. split.
  - intros Hnone.
    assert (controlled_by g bot = []) as ->; [| done].
    destruct (controlled_by g bot) as [|l ls] eqn:Hls; [done |].
    assert (l ∈ controlled_by g bot) as [Hown [k Hk]]%elem_of_controlled_by
      by (rewrite Hls; apply list_elem_of_here).
    by destruct (Hnone k l Hk).
  - intros Hnn.
    assert (Forall (λ w, 0 ≤ w) (get_total_units <$> controlled_by g bot))
      as Hall.
    { apply Forall_fmap, Forall_forall.
      intros l [Hown [k Hk]]%elem_of_controlled_by. by apply (Hnn k l). }
    split.
    + unfold py_sum. by apply foldl_add_non_negative.
    + intros k l Hk Hown.
      apply (py_sum_bounds_elements _ _ Hall).
      apply list_elem_of_fmap_2, elem_of_controlled_by. eauto.
Qed.

(** ** The ledger: player statistics *)

Lemma with_player_stats_same g : with_player_stats (player_stats g) g = g.
Proof. by destruct g. Qed.

Lemma initialize_player_stats_run g bot :
  run (initialize_player_stats bot) g =
    (Returned tt,
     with_player_stats (<[bot := stats_or_new g bot]> (player_stats g)) g).
Proof.
  unfold initialize_player_stats, stats_or_new. cbn.
  destruct (player_stats g !! bot) as [st|] eqn:Hst; cbn.
  - rewrite bool_decide_eq_false_2.
    + cbn. by rewrite insert_id, with_player_stats_same.
    + intros Hnot. apply Hnot. by apply elem_of_dom_2 in Hst.
  - rewrite bool_decide_eq_true_2; [done |]. by apply not_elem_of_dom.
Qed.

Lemma update_player_stats_run g bot :
  run (update_player_stats bot) g =
    (Returned tt,
     with_player_stats
       (<[bot := with_total_units
                   (py_sum (get_total_units <$> controlled_by g bot))
                   (with_territories (Z.of_nat (length (controlled_by g bot)))
                                     (stats_or_new g bot))]>
          (player_stats g)) g).
Proof.
  unfold update_player_stats.
  rewrite run_bind, initialize_player_stats_run.
  rewrite run_bind. cbn [get_self run].
  rewrite run_bind, (getitem_present _ _ (stats_or_new g bot))
    by (cbn; apply lookup_insert_eq).
  rewrite run_bind, get_bot_locations_run.
  rewrite run_bind. cbn [modify run].
  rewrite run_bind, get_bot_units_run.
  cbn. unfold with_player_stats. cbn.
  by rewrite !insert_insert_eq.
Qed.

(** X16. [initialize_player_stats] gives a bot without statistics a fresh
    record, all counters and the score at 0, and never touches a record
    that is already there; calling it again changes nothing. *)
Theorem initialize_player_stats_only_once g bot :
  (player_stats g !! bot = None →
     run (initialize_player_stats bot) g =
       (Returned tt,
        with_player_stats (<[bot := new_player_stats bot]> (player_stats g)) g) ∧
     get_score (new_player_stats bot) = 0) ∧
  (is_Some (player_stats g !! bot) →
     run (initialize_player_stats bot) g = (Returned tt, g)) ∧
  run (initialize_player_stats bot) (run (initialize_player_stats bot) g).2 =
    (Returned tt, (run (initialize_player_stats bot) g).2).
Proof.
  assert (∀ g', is_Some (player_stats g' !! bot) →
                run (initialize_player_stats bot) g' = (Returned tt, g')) as Hkeep.
  { intros g' [st Hst]. rewrite initialize_player_stats_run.
    unfold stats_or_new. rewrite Hst. cbn.
    by rewrite insert_id, with_player_stats_same. }
  split; [| split].
  - intros Hnone. split; [| done].
    rewrite initialize_player_stats_run. unfold stats_or_new. by rewrite Hnone.
  - apply Hkeep.
  - apply Hkeep. rewrite initialize_player_stats_run. cbn.
    rewrite lookup_insert_eq. eauto.
Qed.

(** X17. [update_player_stats] never raises. Afterwards the bot's record
    holds, as [territories], the number of locations [get_bot_locations]
    returns for it and, as [total_units], what [get_bot_units] returns;
    [power], [units_killed] and [orders_executed] are what they were (0
    for a bot seen for the first time). The records of the other bots and
    every other part of the game state stay as they were. *)
Theorem update_player_stats_recounts g bot :
  ∃ owned n st,
    run (get_bot_locations bot) g = (Returned owned, g) ∧
    run (get_bot_units bot) g = (Returned n, g) ∧
    run (update_player_stats bot) g =
      (Returned tt, with_player_stats (<[bot := st]> (player_stats g)) g) ∧
    territories st = Z.of_nat (length owned) ∧
    total_units st = n ∧
    (∀ old, player_stats g !! bot = Some old →
       stats_bot_id st = stats_bot_id old ∧ power st = power old ∧
       units_killed st = units_killed old ∧
       orders_executed st = orders_executed old) ∧
    (player_stats g !! bot = None →
       stats_bot_id st = bot ∧ power st = 0 ∧
       units_killed st = 0 ∧ orders_executed st = 0).
Proof.
  eexists _, _, _.
  split; [apply get_bot_locations_run |].
  split; [apply get_bot_units_run |].
  split; [apply update_player_stats_run |].
  split; [done |]. split; [done |]. cbn. unfold stats_or_new. split.
  - intros old ->. done.
  - intros ->. done.
Qed.

(** X18. [update_player_stats] is idempotent: a second call for the same
    bot, with the map untouched in between, leaves the state as the first
    call left it. *)
Theorem update_player_stats_idempotent g bot :
  run (update_player_stats bot) (run (update_player_stats bot) g).2 =
    (Returned tt, (run (update_player_stats bot) g).2).
Proof.
  rewrite (update_player_stats_run g bot). cbn [snd].
  rewrite update_player_stats_run. f_equal.
  unfold stats_or_new, controlled_by, with_player_stats. cbn.
  rewrite lookup_insert_eq. cbn. by rewrite insert_insert_eq.
Qed.

(** ** The ledger: history *)

(** X19. [record_turn] appends one record and changes nothing else. The
    record carries the current [turn] and one snapshot per bot that has
    statistics, holding that bot's [territories], [power] and
    [total_units] and, as [score], [territories * 10 + power]. *)
Theorem record_turn_snapshots_every_player g :
  ∃ record,
    run record_turn g =
      (Returned tt, with_turn_history (turn_history g ++ [record]) g) ∧
    rec_turn record = turn g ∧
    dom (rec_player_stats record) = dom (player_stats g) ∧
    ∀ bot st, player_stats g !! bot = Some st →
      ∃ snap, rec_player_stats record !! bot = Some snap ∧
              snap_territories snap = territories st ∧
              snap_power snap = power st ∧
              snap_total_units snap = total_units st ∧
              snap_score snap = territories st * 10 + power st.
Proof.
  eexists. split; [done |]. cbn. split; [done |].
  split; [apply dom_fmap_L |].
  intros bot st Hst. exists (snapshot_of st).
  rewrite lookup_fmap, Hst. done.
Qed.

Lemma connect_locations_keeps_ledger g a b :
  turn_history (run (connect_locations a b) g).2 = turn_history g ∧
  turn (run (connect_locations a b) g).2 = turn g.
Proof.
  destruct (locations g !! a) as [la|] eqn:Hla;
    [destruct (locations g !! b) as [lb|] eqn:Hlb |].
  - by rewrite (connect_locations_known_run g a b la lb Hla Hlb).
  - by rewrite connect_locations_unknown by (right; by apply not_elem_of_dom).
  - by rewrite connect_locations_unknown by (left; by apply not_elem_of_dom).
Qed.

(** What one state-changing call does to the turn counter, the history
    and the map. *)
Lemma perform_game_effect g op :
  let g' := (run (perform_game op) g).2 in
  turn_history g' =
    turn_history g ++
      (if is_record_turn op
       then [MkTurnRecord (turn g) (snapshot_of <$> player_stats g)] else []) ∧
  turn g ≤ turn g' ≤ turn g + (if is_next_turn op then 1 else 0) ∧
  (is_map_op op = false → locations g' = locations g).
Proof.
  destruct op as [[loc | a b] | [o | |] | bot | bot |];
    cbn [perform_game perform_map perform_turn
         is_record_turn is_next_turn is_map_op].
  - cbn. rewrite app_nil_r. split; [done |]. split; [lia | done].
  - destruct (connect_locations_keeps_ledger g a b) as [Hh Ht].
    rewrite Hh, Ht, app_nil_r. split; [done |]. split; [lia | done].
  - cbn. rewrite app_nil_r. split; [done |]. split; [lia | done].
  - destruct (decide (turn_order g = [])) as [Hempty|Hne].
    + rewrite next_turn_empty by done. cbn. rewrite app_nil_r.
      split; [done |]. split; [lia | done].
    + destruct (decide (current_turn_index g + 1 <
                        Z.of_nat (length (turn_order g)))).
      * rewrite next_turn_advance by done. cbn. rewrite app_nil_r.
        split; [done |]. split; [lia | done].
      * rewrite next_turn_wrap by (done || lia). cbn. rewrite app_nil_r.
        split; [done |]. split; [lia | done].
  - cbn. rewrite app_nil_r. split; [done |]. split; [lia | done].
  - rewrite initialize_player_stats_run. cbn. rewrite app_nil_r.
    split; [done |]. split; [lia | done].
  - rewrite update_player_stats_run. cbn. rewrite app_nil_r.
    split; [done |]. split; [lia | done].
  - cbn. split; [done |]. split; [lia | done].
Qed.

(** X20. The history is append-only. Over any sequence of state-changing
    calls ([add_location], [connect_locations], the three turn-order
    calls, [initialize_player_stats], [update_player_stats],
    [record_turn]) the history at the start is a prefix of the history at
    the end, and it has grown by exactly one record per [record_turn]
    call: records are never rewritten, dropped or reordered. *)
Theorem turn_history_is_append_only g ops :
  turn_history g `prefix_of` turn_history (perform_game_all ops g) ∧
  length (turn_history (perform_game_all ops g)) =
    (length (turn_history g) + length (filter (λ op, is_record_turn op) ops))%nat.
Proof.
  revert g. induction ops as [|op ops IH]; intros g.
  { cbn. split; [done |]. lia. }
  unfold perform_game_all. cbn [foldl].
  destruct (perform_game_effect g op) as (Hhist & _ & _).
  destruct (IH (run (perform_game op) g).2) as [Hprefix Hlen].
  unfold perform_game_all in Hprefix, Hlen. split.
  - etrans; [| exact Hprefix]. rewrite Hhist. by apply prefix_app_r.
  - rewrite Hlen, Hhist, length_app, filter_cons.
    destruct (is_record_turn op);
      [rewrite decide_True by done | rewrite decide_False by auto];
      cbn [length]; lia.
Qed.

(** X21. The turn counter never runs backwards. Over any sequence of
    state-changing calls [turn] does not decrease, and it rises by at
    most one per [next_turn] call; no other call moves it. *)
Theorem turn_counter_is_monotone g ops :
  turn g ≤ turn (perform_game_all ops g) ≤
    turn g + Z.of_nat (length (filter (λ op, is_next_turn op) ops)).
Proof.
  revert g. induction ops as [|op ops IH]; intros g.
  { cbn. lia. }
  unfold perform_game_all. cbn [foldl].
  destruct (perform_game_effect g op) as (_ & Hturn & _).
  specialize (IH (run (perform_game op) g).2).
  unfold perform_game_all in IH. rewrite filter_cons.
  destruct (is_next_turn op); cbn [length Is_true] in *;
    [rewrite decide_True by done | rewrite decide_False by auto];
    cbn [length]; lia.
Qed.

Lemma legal_orders_depend_on_map_only g g' bot :
  locations g' = locations g →
  foldl (file_orders g' bot) ∅ (controlled_by g' bot) =
  foldl (file_orders g bot) ∅ (controlled_by g bot).
Proof.
  intros Hmap.
  assert (controlled_by g' bot = controlled_by g bot) as ->
    by (unfold controlled_by; by rewrite Hmap).
  assert (∀ acc l, file_orders g' bot acc l = file_orders g bot acc l) as Hstep.
  { intros acc l.
    unfold file_orders, orders_of, adjacent_of, known_neighbours.
    by rewrite Hmap. }
  generalize (∅ : gmap string (list (Order coord))).
  induction (controlled_by g bot) as [|l ls IH]; intros acc; [done |].
  cbn [foldl]. by rewrite Hstep, IH.
Qed.

(** X22. Bookkeeping does not change what is legal. Turn-order calls,
    statistics calls and [record_turn], in any number and order, leave
    the map as it is, and [get_legal_orders] returns for every bot the
    same mapping after them as before. *)
Theorem bookkeeping_keeps_legal_orders g ops bot :
  Forall (λ op, is_map_op op = false) ops →
  locations (perform_game_all ops g) = locations g ∧
  ∃ legal,
    run (get_legal_orders bot) g = (Returned legal, g) ∧
    run (get_legal_orders bot) (perform_game_all ops g) =
      (Returned legal, perform_game_all ops g).
Proof.
  intros Hops.
  assert (locations (perform_game_all ops g) = locations g) as Hmap.
  { revert g. induction Hops as [|op ops Hop _ IH]; intros g; [done |].
    unfold perform_game_all. cbn [foldl].
    destruct (perform_game_effect g op) as (_ & _ & Hsame).
    unfold perform_game_all in IH. rewrite IH. by apply Hsame. }
  split; [done |]. eexists. split; [apply get_legal_orders_run |].
  rewrite get_legal_orders_run. f_equal.
  by rewrite (legal_orders_depend_on_map_only g _ bot Hmap).
Qed.

(** ** The leaderboard *)

Lemma insert_descending_Permutation {A} (key : A → Z) (x : A) (l : list A) :
  insert_descending key x l ≡ₚ x :: l.
Proof.
  induction l as [|y l IH]; cbn; [done |].
  case_bool_decide; [done |]. rewrite IH. apply Permutation_swap.
Qed.

Lemma sorted_reverse_Permutation {A} (key : A → Z) (l : list A) :
  sorted_reverse key l ≡ₚ l.
Proof.
  induction l as [|x l IH]; cbn; [done |].
  by rewrite insert_descending_Permutation, IH.
Qed.

Lemma insert_descending_sorted {A} (key : A → Z) (x : A) (l : list A) :
  StronglySorted (λ a b, key b ≤ key a) l →
  StronglySorted (λ a b, key b ≤ key a) (insert_descending key x l).
Proof.
  induction 1 as [|y l Hsorted IH Hall]; cbn.
  - repeat constructor.
  - case_bool_decide as Hcmp.
    + constructor; [by constructor |].
      constructor; [done |].
      eapply Forall_impl; [exact Hall |]. cbn. intros z Hz. lia.
    + constructor; [done |].
      rewrite insert_descending_Permutation.
      constructor; [lia | done].
Qed.

Lemma sorted_reverse_sorted {A} (key : A → Z) (l : list A) :
  StronglySorted (λ a b, key b ≤ key a) (sorted_reverse key l).
Proof.
  induction l as [|x l IH]; cbn; [constructor |].
  by apply insert_descending_sorted.
Qed.

(** X23. [get_leaderboard] never raises and changes nothing. It returns
    one row [(bot, score, territories, total_units)] for each bot that has
    statistics, with [score = territories * 10 + power], no bot twice, in
    descending order of score; so the first row carries a highest
    score. *)
Theorem get_leaderboard_ranks_by_score g :
  ∃ rows,
    run get_leaderboard g = (Returned rows, g) ∧
    StronglySorted (λ r1 r2, row_score r2 ≤ row_score r1) rows ∧
    (∀ row, row ∈ rows ↔
       ∃ bot st, player_stats g !! bot = Some st ∧
                 row = (bot, territories st * 10 + power st,
                        territories st, total_units st)) ∧
    NoDup ((λ row, row.1.1.1) <$> rows) ∧
    length rows = size (player_stats g) ∧
    (∀ top rest bot st,
       rows = top :: rest → player_stats g !! bot = Some st →
       get_score st ≤ row_score top).
Proof.
  set (scores := leaderboard_row <$> map_to_list (player_stats g)).
  exists (sorted_reverse row_score scores).
  pose proof (sorted_reverse_Permutation row_score scores) as Hperm.
  pose proof (sorted_reverse_sorted row_score scores) as Hsorted.
  assert (∀ row, row ∈ sorted_reverse row_score scores ↔
            ∃ bot st, player_stats g !! bot = Some st ∧
                      row = (bot, territories st * 10 + power st,
                             territories st, total_units st)) as Hrows.
  { intros row. rewrite Hperm. unfold scores. rewrite list_elem_of_fmap. split.
    - intros ([bot st] & -> & Hin%elem_of_map_to_list). by exists bot, st.
    - intros (bot & st & Hst & ->). exists (bot, st).
      split; [done |]. by apply elem_of_map_to_list. }
  split; [done |]. split; [done |]. split; [done |]. split; [| split].
  - rewrite Hperm. unfold scores. rewrite <- list_fmap_compose.
    apply (NoDup_fst_map_to_list (player_stats g)).
  - rewrite Hperm. unfold scores.
    by rewrite length_fmap, length_map_to_list.
  - intros top rest bot st Hrows_eq Hst.
    assert ((bot, territories st * 10 + power st, territories st, total_units st)
              ∈ top :: rest) as Hin.
    { rewrite <- Hrows_eq. apply Hrows. eauto. }
    rewrite Hrows_eq in Hsorted. apply StronglySorted_inv in Hsorted as [_ Hall].
    apply elem_of_cons in Hin as [<- | Hin]; [done |].
    by apply (proj1 (Forall_forall _ _) Hall) in Hin.
Qed.

(** ** Turn order *)

Lemma next_turns_within_round g (k : nat) :
  turn_order g ≠ [] → current_turn_index g = 0 →
  (k < length (turn_order g))%nat →
  Nat.iter k (λ s, (run next_turn s).2) g =
    with_current_turn_index (Z.of_nat k) g.
Proof.
  intros Hne Hzero. induction k as [|k IH]; intros Hk.
  - destruct g. cbn in Hzero |- *. by rewrite Hzero.
  - rewrite Nat.iter_succ, IH by lia.
    rewrite next_turn_advance; cbn; [| done | lia].
    unfold with_current_turn_index. cbn. f_equal. lia.
Qed.

(** X24. A round gives every bot its turn, in order. With a non-empty
    rotation and the pointer on its first bot, after [k] calls of
    [next_turn], for each [k] below the length of the rotation, the
    current player is the [k]-th bot of [turn_order] and [turn] has not
    moved; the call after the last bot's turn puts the pointer back on
    the first bot and raises [turn] by one. *)
Theorem round_gives_every_bot_its_turn g :
  turn_order g ≠ [] → current_turn_index g = 0 →
  (∀ k p, turn_order g !! k = Some p →
     let gk := Nat.iter k (λ s, (run next_turn s).2) g in
     run get_current_player gk = (Returned (Some p), gk) ∧
     turn gk = turn g ∧ turn_order gk = turn_order g) ∧
  Nat.iter (length (turn_order g)) (λ s, (run next_turn s).2) g =
    with_turn (turn g + 1) g.
Proof.
  intros Hne Hzero. split.
  - intros k p Hp gk. unfold gk.
    pose proof (lookup_lt_Some _ _ _ Hp) as Hk.
    rewrite next_turns_within_round by done.
    split; [| done].
    destruct (get_current_player_in_range
                (with_current_turn_index (Z.of_nat k) g))
      as (q & Hrun & Hq); cbn; [done | lia |].
    cbn in Hq. rewrite Nat2Z.id in Hq. by assert (q = p) as -> by congruence.
  - rewrite finish_round; [| done | lia | lia |].
    + destruct g. cbn in Hzero |- *. by rewrite Hzero.
    + destruct (turn_order g); [done | cbn; lia].
Qed.

(** X25. [set_turn_order] restarts the rotation: whatever the old order
    and pointer were, afterwards the rotation is the given list, the
    pointer is 0 and the current player is the first bot of the list
    ([None] for an empty list); [turn] and the rest of the game state are
    untouched. *)
Theorem set_turn_order_restarts_rotation g bot_order :
  run (set_turn_order bot_order) g =
    (Returned tt, with_current_turn_index 0 (with_turn_order bot_order g)) ∧
  (let g' := (run (set_turn_order bot_order) g).2 in
   run get_current_player g' = (Returned (head bot_order), g') ∧
   turn g' = turn g).
Proof.
  split; [done |]. cbn. split; [| done].
  unfold get_current_player. cbn. by destruct bot_order.
Qed.

(** ** Legal orders and their check *)

(** The orders of one location: who issues them, from where, towards whom. *)
Lemma elem_of_orders_of g bot l o :
  o ∈ orders_of g bot l →
  location o = l ∧ bot_id o = Some bot ∧
  ((order_type o = DEFEND ∧ target_location o = None) ∨
   ∃ n a, n ∈ adjacent_locations l ∧ locations g !! n = Some a ∧
          target_location o = Some a ∧
          ((order_type o = SUPPORT ∧ owner a = Some bot) ∨
           (order_type o = MARCH ∧ owner a ≠ Some bot))).
Proof.
  unfold orders_of. rewrite elem_of_cons, list_elem_of_fmap.
  intros [-> | (a & -> & (n & Hn & Ha)%elem_of_adjacent_of)]; cbn.
  - split; [done |]. split; [done |]. by left.
  - split; [done |]. split; [done |]. right. exists n, a.
    split; [done |]. split; [done |]. split; [done |].
    case_bool_decide; [by left | by right].
Qed.

(** X26. The check accepts whatever the generator offers: every order
    found in any list of the mapping [get_legal_orders] returns for a bot
    makes [is_legal_order] return [True] for that bot, on the same
    state. *)
Theorem offered_orders_are_legal g bot :
  ∃ legal,
    run (get_legal_orders bot) g = (Returned legal, g) ∧
    ∀ n location_orders order,
      legal !! n = Some location_orders → order ∈ location_orders →
      run (is_legal_order bot order) g = (Returned true, g).
Proof.
  eexists. split; [apply get_legal_orders_run |].
  intros n os o Hos Ho. rewrite is_legal_order_run.
  destruct (file_orders_lookup_Some g bot _ _ n os Hos)
    as [Hempty | (l & _ & Hname & _ & ->)].
  { by rewrite lookup_empty in Hempty. }
  destruct (elem_of_orders_of g bot l o Ho) as (Hloc & _).
  rewrite Hloc, Hname, Hos. by rewrite bool_decide_eq_true_2.
Qed.

(** X27. What a legal order looks like. When [is_legal_order] returns
    [True], the order is issued by that bot from a location of the map
    that the bot owns and that has a positive unit total, and it is either
    a [DEFEND] without target, or a [SUPPORT] towards a known neighbour
    the bot owns, or a [MARCH] towards a known neighbour it does not own.
    So [RAID] and [CONSOLIDATE_POWER] orders, orders in another bot's
    name and orders towards a location that is not adjacent are never
    legal. *)
Theorem legal_orders_are_well_formed g bot order :
  run (is_legal_order bot order) g = (Returned true, g) →
  bot_id order = Some bot ∧
  owner (location order) = Some bot ∧
  get_total_units (location order) > 0 ∧
  (∃ k, locations g !! k = Some (location order)) ∧
  ((order_type order = DEFEND ∧ target_location order = None) ∨
   ∃ n a, n ∈ adjacent_locations (location order) ∧
          locations g !! n = Some a ∧ target_location order = Some a ∧
          ((order_type order = SUPPORT ∧ owner a = Some bot) ∨
           (order_type order = MARCH ∧ owner a ≠ Some bot))).
Proof.
  rewrite is_legal_order_run.
  destruct (foldl (file_orders g bot) ∅ (controlled_by g bot)
              !! name (location order)) as [os|] eqn:Hos; [| discriminate].
  intros [= Hin%bool_decide_eq_true].
  destruct (file_orders_lookup_Some g bot _ _ _ os Hos)
    as [Hempty | (l & Hl & _ & Hu & ->)].
  { by rewrite lookup_empty in Hempty. }
  apply elem_of_controlled_by in Hl as [Hown Hk].
  apply has_units_true in Hu.
  destruct (elem_of_orders_of g bot l order Hin) as (-> & Hbot & Hshape).
  done.
Qed.

(** X28. No location offers orders to two bots. In a map whose locations
    have names of their own, a name that is a key of the mapping for one
    bot is not a key of the mapping for any other bot. *)
Theorem legal_orders_of_bots_are_disjoint g bot1 bot2 :
  names_unique g →
  ∃ legal1 legal2,
    run (get_legal_orders bot1) g = (Returned legal1, g) ∧
    run (get_legal_orders bot2) g = (Returned legal2, g) ∧
    ∀ n, n ∈ dom legal1 → n ∈ dom legal2 → bot1 = bot2.
Proof.
  intros Hunique. eexists _, _.
  split; [apply get_legal_orders_run |].
  split; [apply get_legal_orders_run |].
  intros n. rewrite !file_orders_dom.
  intros [Hempty | (l1 & Hl1 & Hn1 & _)]
         [Hempty' | (l2 & Hl2 & Hn2 & _)];
    try (by rewrite dom_empty in Hempty; apply not_elem_of_empty in Hempty);
    try (by rewrite dom_empty in Hempty'; apply not_elem_of_empty in Hempty').
  apply elem_of_controlled_by in Hl1 as [Hown1 [k1 Hk1]].
  apply elem_of_controlled_by in Hl2 as [Hown2 [k2 Hk2]].
  assert (k1 = k2) as -> by (eapply Hunique; [done | done | congruence]).
  congruence.
Qed.

(** ** The greedy strategy *)

Lemma filter_by_type_of_typed (t t' : OrderType) (l : list (Order coord)) :
  Forall (λ o, order_type o = t) l →
  filter (λ o, order_type o = t') l = if decide (t = t') then l else [].
Proof.
  induction 1 as [|o l Ho _ IH].
  - by case_decide.
  - rewrite filter_cons, IH. repeat case_decide; congruence.
Qed.

Lemma filter_by_type_typed (t : OrderType) (l : list (Order coord)) :
  Forall (λ o, order_type o = t) (filter (λ o, order_type o = t) l).
Proof. apply Forall_forall. by intros o [? _]%list_elem_of_filter. Qed.

Lemma typed_orders_length (l : list (Order coord)) :
  (length (filter (λ o, order_type o = MARCH) l) +
   length (filter (λ o, order_type o = SUPPORT) l) +
   length (filter (λ o, order_type o = DEFEND) l) ≤ length l)%nat.
Proof.
  induction l as [|o l IH]; [done |].
  rewrite !filter_cons.
  repeat case_decide; cbn [length]; try lia; congruence.
Qed.

(** The choice before the final cut. *)
Lemma GreedyBot_choose_orders_uncut (legal_orders : list (Order coord)) :
  GreedyBot_choose_orders legal_orders =
    filter (λ o, order_type o = MARCH) legal_orders ++
    take (length (filter (λ o, order_type o = MARCH) legal_orders))
         (filter (λ o, order_type o = SUPPORT) legal_orders) ++
    take 1 (filter (λ o, order_type o = DEFEND) legal_orders).
Proof.
  destruct legal_orders as [|o l]; [done |].
  unfold GreedyBot_choose_orders. cbv zeta.
  apply take_ge. rewrite !length_app, !length_take.
  pose proof (typed_orders_length (o :: l)). lia.
Qed.

(** X29. [GreedyBot.choose_orders] only picks from what it is given, and
    its final cut to the number of legal orders never removes anything:
    the result is all the [MARCH] orders, then as many [SUPPORT] orders
    as there are [MARCH] orders (fewer if there are not that many), then
    the first [DEFEND] order if there is one. It is never longer than the
    list of legal orders, and empty for an empty list. *)
Theorem GreedyBot_chooses_among_legal_orders (legal_orders : list (Order coord)) :
  GreedyBot_choose_orders legal_orders =
    filter (λ o, order_type o = MARCH) legal_orders ++
    take (length (filter (λ o, order_type o = MARCH) legal_orders))
         (filter (λ o, order_type o = SUPPORT) legal_orders) ++
    take 1 (filter (λ o, order_type o = DEFEND) legal_orders) ∧
  (∀ o, o ∈ GreedyBot_choose_orders legal_orders → o ∈ legal_orders) ∧
  (length (GreedyBot_choose_orders legal_orders) ≤ length legal_orders)%nat ∧
  GreedyBot_choose_orders ([] : list (Order coord)) = [].
Proof.
  split; [apply GreedyBot_choose_orders_uncut |]. split; [| split; [| done]].
  - intros o. rewrite GreedyBot_choose_orders_uncut, !elem_of_app.
    intros [Hin | [Hin%subseteq_take | Hin%subseteq_take]];
      by apply list_elem_of_filter in Hin as [_ ?].
  - rewrite GreedyBot_choose_orders_uncut, !length_app, !length_take.
    pose proof (typed_orders_length legal_orders). lia.
Qed.

(** X30. What the greedy choice is made of. It keeps every [MARCH] order
    of the input, in the input's order; its [SUPPORT] orders are the first
    ones of the input, no more of them than there are [MARCH] orders; it
    has at most one [DEFEND] order, the first of the input; and it has no
    order of any other type. Without a [MARCH] order in the input nothing
    is supported: the choice is the first [DEFEND] order alone, or
    nothing. *)
Theorem GreedyBot_prefers_marching (legal_orders : list (Order coord)) :
  let chosen := GreedyBot_choose_orders legal_orders in
  filter (λ o, order_type o = MARCH) chosen =
    filter (λ o, order_type o = MARCH) legal_orders ∧
  filter (λ o, order_type o = SUPPORT) chosen =
    take (length (filter (λ o, order_type o = MARCH) legal_orders))
         (filter (λ o, order_type o = SUPPORT) legal_orders) ∧
  filter (λ o, order_type o = DEFEND) chosen =
    take 1 (filter (λ o, order_type o = DEFEND) legal_orders) ∧
  (∀ o, o ∈ chosen →
        order_type o = MARCH ∨ order_type o = SUPPORT ∨ order_type o = DEFEND) ∧
  (filter (λ o, order_type o = MARCH) legal_orders = [] →
     chosen = take 1 (filter (λ o, order_type o = DEFEND) legal_orders)).
Proof.
  intros chosen. unfold chosen. rewrite GreedyBot_choose_orders_uncut.
  set (march := filter (λ o, order_type o = MARCH) legal_orders).
  set (support := filter (λ o, order_type o = SUPPORT) legal_orders).
  set (defend := filter (λ o, order_type o = DEFEND) legal_orders).
  assert (Forall (λ o, order_type o = MARCH) march) as Hmarch
    by apply filter_by_type_typed.
  assert (Forall (λ o, order_type o = SUPPORT) (take (length march) support))
    as Hsupport by apply Forall_take, filter_by_type_typed.
  assert (Forall (λ o, order_type o = DEFEND) (take 1 defend)) as Hdefend
    by apply Forall_take, filter_by_type_typed.
  split; [| split; [| split; [| split]]].
  - rewrite !filter_app.
    rewrite (filter_by_type_of_typed MARCH MARCH _ Hmarch).
    rewrite (filter_by_type_of_typed SUPPORT MARCH _ Hsupport).
    rewrite (filter_by_type_of_typed DEFEND MARCH _ Hdefend).
    cbn. by rewrite !app_nil_r.
  - rewrite !filter_app.
    rewrite (filter_by_type_of_typed MARCH SUPPORT _ Hmarch).
    rewrite (filter_by_type_of_typed SUPPORT SUPPORT _ Hsupport).
    rewrite (filter_by_type_of_typed DEFEND SUPPORT _ Hdefend).
    cbn. by rewrite app_nil_r.
  - rewrite !filter_app.
    rewrite (filter_by_type_of_typed MARCH DEFEND _ Hmarch).
    rewrite (filter_by_type_of_typed SUPPORT DEFEND _ Hsupport).
    rewrite (filter_by_type_of_typed DEFEND DEFEND _ Hdefend).
    done.
  - intros o. rewrite !elem_of_app. intros [Hin | [Hin | Hin]].
    + left. by apply (proj1 (Forall_forall _ _) Hmarch).
    + right. left. by apply (proj1 (Forall_forall _ _) Hsupport).
    + right. right. by apply (proj1 (Forall_forall _ _) Hdefend).
  - intros Hnone. rewrite Hnone. done.
Qed.

End MoreProperties.

(** * The properties at work on the sample data *)

Lemma default_units_non_negative (k : UnitType) (n : Z) :
  default_units !! k = Some n → 0 ≤ n.
Proof. destruct k; vm_compute; intros [= <-]; discriminate. Qed.

Lemma winterfell_non_negative : non_negative winterfell.
Proof.
  split; [apply default_units_non_negative |]. split; vm_compute; discriminate.
Defined.

Lemma add_supply_capped_witness :
  (supply depot ≤ max_supply depot ∧ 0 ≤ 2) ∧
  run (add_supply 2) depot = (Returned false, with_supply (max_supply depot) depot) ∧
  supply (run (add_supply 2) depot).2 ≤ max_supply (run (add_supply 2) depot).2.
Proof.
  assert (supply depot ≤ max_supply depot) as Hle by (vm_compute; discriminate).
  assert (0 ≤ 2) as Hamount by lia.
  destruct (add_supply_capped depot 2 Hle Hamount) as (Hcap & Hover & _ & _).
  split; [done |]. split; [| done].
  apply Hover. vm_compute. reflexivity.
Defined.

Lemma set_owner_only_without_units_witness :
  get_total_units winterfell ≤ 0 ∧
  run (set_owner (Some "Stark"%string)) winterfell =
    (Returned true, with_owner (Some "Stark"%string) winterfell) ∧
  get_total_units winterfell_held > 0 ∧
  run (set_owner (Some "Lannister"%string)) winterfell_held =
    (Raised ValueError, winterfell_held).
Proof.
  assert (get_total_units winterfell ≤ 0) as Hnone by (vm_compute; discriminate).
  assert (get_total_units winterfell_held > 0) as Hsome by (vm_compute; reflexivity).
  split; [done |]. split.
  - by apply (set_owner_only_without_units winterfell (Some "Stark"%string)).
  - split; [done |].
    by apply (set_owner_only_without_units winterfell_held (Some "Lannister"%string)).
Defined.

(** C3 as written fails where a unit count has been driven below zero:
    [add_units(FOOTMAN, -1)] is accepted on a fresh location, the total
    is then -1, and [set_owner] succeeds although the total is not zero. *)
Lemma set_owner_succeeds_below_zero :
  ¬ ((∃ l', run (set_owner (Some "Lannister"%string)) winterfell_overdrawn =
              (Returned true, l')) ↔
     get_total_units winterfell_overdrawn = 0).
Proof.
  intros [Hzero _].
  assert (get_total_units winterfell_overdrawn = 0) as Htotal.
  { apply Hzero. eexists. vm_compute. reflexivity. }
  vm_compute in Htotal. discriminate.
Qed.

Lemma add_units_checks_owner_witness :
  (owner winterfell = None ∧
   run (add_units FOOTMAN 2 (Some "Stark"%string)) winterfell =
     (Returned true, winterfell_held)) ∧
  (owner winterfell_held = Some "Stark"%string ∧
   run (add_units KNIGHT 1 (Some "Stark"%string)) winterfell_held =
     (Returned true,
      with_units (<[KNIGHT := 1]> (units winterfell_held)) winterfell_held) ∧
   run (add_units KNIGHT 1 (Some "Lannister"%string)) winterfell_held =
     (Raised ValueError, winterfell_held)).
Proof.
  split.
  - split; [reflexivity |].
    destruct (add_units_checks_owner winterfell FOOTMAN 2 "Stark"%string)
      as (Hassign & _).
    rewrite Hassign by reflexivity. vm_compute. reflexivity.
  - split; [reflexivity |]. split.
    + destruct (add_units_checks_owner winterfell_held KNIGHT 1 "Stark"%string)
        as (_ & Hsame & _).
      rewrite Hsame by reflexivity. reflexivity.
    + destruct (add_units_checks_owner winterfell_held KNIGHT 1
                  "Lannister"%string) as (_ & _ & _ & Hconflict & _).
      apply (Hconflict "Stark"%string); [reflexivity | discriminate].
Defined.

(** C5, where the code departs from it. On a kind that has no entry in
    [units] the guard of [remove_units] reads the count as 0, so a request
    for 0 passes it, and the decrement then indexes the dict and raises
    [KeyError] instead of returning [True]. A request for 1 is refused
    with [False] as it should be, and [add_units] on the same kind copes
    with the missing entry. *)
Theorem remove_units_zero_without_entry_raises :
  units_get outpost KNIGHT >= 0 ∧
  run (remove_units KNIGHT 0) outpost = (Raised KeyError, outpost) ∧
  run (remove_units KNIGHT 1) outpost = (Returned false, outpost) ∧
  run (add_units KNIGHT 0 None) outpost =
    (Returned true, with_units (<[KNIGHT := 0]> (units outpost)) outpost).
Proof.
  split; [vm_compute; discriminate |].
  split; [| split]; vm_compute; reflexivity.
Qed.

(** C8 as written fails twice over: a negative amount handed to an adder
    is accepted and drives the quantity below zero, and on a location whose
    [max_supply] is negative even [add_supply(0)] clamps the supply to
    that negative cap. *)
Lemma mutators_can_go_negative :
  (non_negative winterfell ∧
   ¬ non_negative (perform_all [OpAddCrowns (-1)] winterfell)) ∧
  (non_negative wasteland ∧
   ¬ non_negative (perform_all [OpAddSupply 0] wasteland)).
Proof.
  split; split.
  - apply winterfell_non_negative.
  - intros (_ & _ & Hcrowns). vm_compute in Hcrowns. by apply Hcrowns.
  - split; [apply default_units_non_negative |]. split; vm_compute; discriminate.
  - intros (_ & Hsupply & _). vm_compute in Hsupply. by apply Hsupply.
Qed.

Lemma mutators_keep_non_negative_witness :
  let ops := [OpAddUnits FOOTMAN 2 (Some "Stark"%string);
              OpRemoveUnits FOOTMAN 5;
              OpRemoveUnits FOOTMAN (-1);
              OpAddSupply 4;
              OpRemoveCrowns 1;
              OpAddCrowns 3;
              OpSetOwner None] in
  (non_negative winterfell ∧ 0 ≤ max_supply winterfell ∧
   Forall adds_non_negative ops) ∧
  non_negative (perform_all ops winterfell).
Proof.
  intros ops.
  assert (0 ≤ max_supply winterfell) as Hmax by (vm_compute; discriminate).
  assert (Forall adds_non_negative ops) as Hops.
  { unfold ops. repeat constructor; cbn; lia. }
  split; [by split; [apply winterfell_non_negative |] |].
  exact (mutators_keep_non_negative winterfell ops
           winterfell_non_negative Hmax Hops).
Defined.

Lemma three_next_turns_one_round_witness :
  (turn_order three_houses = ["Stark"; "Lannister"; "Baratheon"]%string ∧
   current_turn_index three_houses = 0) ∧
  let after := (run next_turn (run next_turn (run next_turn three_houses).2).2).2 in
  current_turn_index after = 0 ∧ turn after = turn three_houses + 1 ∧
  run get_current_player after = (Returned (Some "Stark"%string), after).
Proof.
  split; [by split |].
  destruct (three_next_turns_one_round three_houses
              "Stark"%string "Lannister"%string "Baratheon"%string
              eq_refl eq_refl)
    as (_ & _ & [Hindex Hturn] & _ & Hplayer).
  by repeat split.
Defined.

Lemma three_houses_second_turn_reachable :
  turn_reachable (run next_turn three_houses).2.
Proof.
  apply (reach_step three_houses OpNextTurn).
  apply (reach_step new_game_state
           (OpSetTurnOrder ["Stark"; "Lannister"; "Baratheon"]%string)).
  apply reach_new.
Defined.

Lemma turn_pointer_stays_in_range_witness :
  turn_reachable (run next_turn three_houses).2 ∧
  ∃ p, run get_current_player (run next_turn three_houses).2 =
         (Returned (Some p), (run next_turn three_houses).2) ∧
       p ∈ turn_order (run next_turn three_houses).2.
Proof.
  split; [apply three_houses_second_turn_reachable |].
  destruct (turn_pointer_stays_in_range (run next_turn three_houses).2
              three_houses_second_turn_reachable)
    as (_ & _ & Hsome & _).
  destruct Hsome as (p & Hrun & Hin & _); [discriminate |].
  by exists p.
Defined.

Lemma westeros_keyed_by_name : keyed_by_name westeros.
Proof.
  change (map_Forall (λ k l, name l = k) (locations westeros)).
  apply (bool_decide_unpack _). vm_compute. exact I.
Defined.

Lemma connect_locations_symmetric_idempotent_witness :
  ("Winterfell"%string ∈ dom (locations westeros) ∧
   "The Twins"%string ∈ dom (locations westeros)) ∧
  ∃ g' la lb,
    run (connect_locations "Winterfell" "The Twins") westeros = (Returned tt, g') ∧
    locations g' !! "Winterfell"%string = Some la ∧
    locations g' !! "The Twins"%string = Some lb ∧
    "The Twins"%string ∈ adjacent_locations la ∧
    "Winterfell"%string ∈ adjacent_locations lb.
Proof.
  assert ("Winterfell"%string ∈ dom (locations westeros)) as Ha.
  { apply (bool_decide_unpack _). vm_compute. exact I. }
  assert ("The Twins"%string ∈ dom (locations westeros)) as Hb.
  { apply (bool_decide_unpack _). vm_compute. exact I. }
  split; [by split |].
  destruct (connect_locations_symmetric_idempotent westeros
              "Winterfell"%string "The Twins"%string) as (Hlinks & _ & _).
  exact (Hlinks Ha Hb).
Defined.

Lemma westeros_moat_cailin :
  locations westeros !! "Moat Cailin"%string = Some moat_cailin_linked.
Proof. vm_compute. reflexivity. Defined.


(** The generator on the sample map. *)

Example westeros_tully_has_nothing :
  run (get_legal_orders "Tully") westeros = (Returned ∅, westeros).
Proof. vm_compute. reflexivity. Qed.

Example westeros_moat_cailin_orders :
  ∃ legal location_orders,
    (run (get_legal_orders "Stark") westeros).1 = Returned legal ∧
    legal !! "Moat Cailin"%string = Some location_orders ∧
    order_type <$> location_orders = [DEFEND; SUPPORT; MARCH] ∧
    (λ o, name <$> target_location o) <$> location_orders =
      [None; Some "Winterfell"; Some "The Twins"]%string.
Proof. eexists _, _. vm_compute. repeat split. Qed.

Example westeros_defend_is_legal :
  (run (is_legal_order "Stark"
          (MkOrder DEFEND moat_cailin_linked None (Some "Stark"%string)))
       westeros).1 = Returned true.
Proof. vm_compute. reflexivity. Qed.

Example westeros_raid_is_not_legal :
  (run (is_legal_order "Stark"
          (MkOrder RAID moat_cailin_linked None (Some "Stark"%string)))
       westeros).1 = Returned false.
Proof. vm_compute. reflexivity. Qed.

Example depot_supply_mechanics :
  supply depot = 2 ∧
  run (add_supply 2) depot = (Returned false, with_supply 3 depot) ∧
  run (remove_supply 1) (with_supply 3 depot) = (Returned true, depot).
Proof. repeat split; vm_compute; reflexivity. Qed.

(** * The further properties on the sample data *)

Lemma winterfell_held_non_negative (k : UnitType) (n : Z) :
  units winterfell_held !! k = Some n → 0 ≤ n.
Proof. destruct k; vm_compute; intros [= <-]; discriminate. Defined.

Lemma add_then_remove_units_restores_witness :
  (0 ≤ units_get winterfell FOOTMAN ∧
   run (add_units FOOTMAN 2 (Some "Stark"%string)) winterfell =
     (Returned true, winterfell_held)) ∧
  ∃ l2, run (remove_units FOOTMAN 2) winterfell_held = (Returned true, l2) ∧
        units l2 = units winterfell ∧
        get_total_units l2 = get_total_units winterfell.
Proof.
  assert (0 ≤ units_get winterfell FOOTMAN) as Hcount
    by (vm_compute; discriminate).
  assert (run (add_units FOOTMAN 2 (Some "Stark"%string)) winterfell =
            (Returned true, winterfell_held)) as Hadd
    by (vm_compute; reflexivity).
  split; [by split |].
  destruct (add_then_remove_units_restores winterfell FOOTMAN 2
              (Some "Stark"%string) true winterfell_held Hcount Hadd)
    as (l2 & Hrun & _ & Hsame & Htotal & _).
  exists l2. split; [exact Hrun |]. split; [| exact Htotal].
  apply Hsame. vm_compute. eexists. reflexivity.
Defined.

Lemma remove_then_add_supply_restores_witness :
  (supply depot ≤ max_supply depot ∧ 0 ≤ 1 ≤ supply depot) ∧
  ∃ l1, run (remove_supply 1) depot = (Returned true, l1) ∧
        run (add_supply 1) l1 = (Returned true, depot).
Proof.
  assert (supply depot ≤ max_supply depot) as Hcap
    by (vm_compute; discriminate).
  assert (0 ≤ 1 ≤ supply depot) as Hamount
    by (split; vm_compute; discriminate).
  split; [by split |].
  exact (remove_then_add_supply_restores depot 1 Hcap Hamount).
Defined.

Lemma has_units_iff_some_kind_positive_witness :
  has_units winterfell_held = true ∧
  ∃ k n, units winterfell_held !! k = Some n ∧ 0 < n.
Proof.
  assert (has_units winterfell_held = true) as Hhas by (vm_compute; reflexivity).
  split; [exact Hhas |].
  exact (proj1 (has_units_iff_some_kind_positive winterfell_held
                  winterfell_held_non_negative) Hhas).
Defined.

Lemma clear_then_set_owner_witness :
  (units winterfell_held !! FOOTMAN = Some 2 ∧
   get_total_units winterfell_held = 2) ∧
  run (set_owner (Some "Lannister"%string)) winterfell_held =
    (Raised ValueError, winterfell_held) ∧
  ∃ l1, run (remove_units FOOTMAN 2) winterfell_held = (Returned true, l1) ∧
        run (set_owner (Some "Lannister"%string)) l1 =
          (Returned true, with_owner (Some "Lannister"%string) l1).
Proof.
  assert (units winterfell_held !! FOOTMAN = Some 2) as Hentry
    by (vm_compute; reflexivity).
  assert (get_total_units winterfell_held = 2) as Htotal
    by (vm_compute; reflexivity).
  split; [by split |].
  destruct (clear_then_set_owner winterfell_held FOOTMAN 2
              (Some "Lannister"%string) Hentry Htotal)
    as (Hrefused & l1 & Hremove & _ & Hset).
  split; [apply Hrefused; lia |].
  exists l1. by split.
Defined.

(** Winterfell registered and a link to an unknown name attempted. *)
Lemma winterfell_alone_reachable :
  map_reachable
    (run (perform_map (OpConnect "Winterfell" "Moat Cailin"))
         (run (perform_map (OpAddLocation winterfell_held))
              new_game_state).2).2.
Proof. do 2 apply map_reach_step. apply map_reach_new. Defined.

Lemma assembled_maps_are_keyed_by_name_witness :
  map_reachable
    (run (perform_map (OpConnect "Winterfell" "Moat Cailin"))
         (run (perform_map (OpAddLocation winterfell_held))
              new_game_state).2).2 ∧
  names_unique
    (run (perform_map (OpConnect "Winterfell" "Moat Cailin"))
         (run (perform_map (OpAddLocation winterfell_held))
              new_game_state).2).2.
Proof.
  split; [exact winterfell_alone_reachable |].
  exact (proj2 (assembled_maps_are_keyed_by_name _ winterfell_alone_reachable)).
Defined.

(** [westeros], call by call. *)
Lemma westeros_freshly_assembled : freshly_assembled westeros.
Proof.
  assert (westeros =
          (run (connect_locations "Moat Cailin" "The Twins")
             (run (connect_locations "Winterfell" "Moat Cailin")
                (run (add_location twins_held)
                   (run (add_location moat_cailin_held)
                      (run (add_location winterfell_held)
                         new_game_state).2).2).2).2).2) as ->
    by (vm_compute; reflexivity).
  do 2 apply fresh_connect.
  repeat (apply fresh_add;
          [| reflexivity
           | apply (bool_decide_unpack _); vm_compute; exact I]).
  apply fresh_new.
Defined.

Lemma freshly_assembled_maps_are_symmetric_witness :
  freshly_assembled westeros ∧
  locations westeros !! "Moat Cailin"%string = Some moat_cailin_linked ∧
  "The Twins"%string ∈ adjacent_locations moat_cailin_linked ∧
  ∃ lb, locations westeros !! "The Twins"%string = Some lb ∧
        "Moat Cailin"%string ∈ adjacent_locations lb.
Proof.
  split; [exact westeros_freshly_assembled |].
  split; [exact westeros_moat_cailin |].
  assert ("The Twins"%string ∈ adjacent_locations moat_cailin_linked) as Hlists.
  { apply (bool_decide_unpack _). vm_compute. exact I. }
  split; [exact Hlists |].
  exact (freshly_assembled_maps_are_symmetric westeros
           westeros_freshly_assembled
           "Moat Cailin"%string "The Twins"%string moat_cailin_linked
           westeros_moat_cailin Hlists).
Defined.

Lemma connected_locations_are_adjacent_witness :
  ("Winterfell"%string ∈ dom (locations westeros) ∧
   "The Twins"%string ∈ dom (locations westeros)) ∧
  ∃ g' la lb adjacent_a,
    run (connect_locations "Winterfell" "The Twins") westeros = (Returned tt, g') ∧
    locations g' !! "Winterfell"%string = Some la ∧
    locations g' !! "The Twins"%string = Some lb ∧
    run (get_adjacent_locations la) g' = (Returned adjacent_a, g') ∧
    lb ∈ adjacent_a.
Proof.
  assert ("Winterfell"%string ∈ dom (locations westeros)) as Ha.
  { apply (bool_decide_unpack _). vm_compute. exact I. }
  assert ("The Twins"%string ∈ dom (locations westeros)) as Hb.
  { apply (bool_decide_unpack _). vm_compute. exact I. }
  split; [by split |].
  destruct (connected_locations_are_adjacent westeros
              "Winterfell"%string "The Twins"%string Ha Hb)
    as (g' & la & lb & adjacent_a & _ & Hrun & Hla & Hlb & Hadj & Hin & _).
  by exists g', la, lb, adjacent_a.
Defined.

Lemma bookkeeping_keeps_legal_orders_witness :
  let ops := [OpTurn (OpSetTurnOrder ["Stark"; "Frey"]%string);
              OpUpdateStats "Stark"%string;
              OpRecordTurn;
              OpTurn OpNextTurn;
              OpInitializeStats "Frey"%string] in
  Forall (λ op : GameOp Z, is_map_op op = false) ops ∧
  locations (perform_game_all ops westeros) = locations westeros ∧
  ∃ legal,
    run (get_legal_orders "Stark") westeros = (Returned legal, westeros) ∧
    run (get_legal_orders "Stark") (perform_game_all ops westeros) =
      (Returned legal, perform_game_all ops westeros).
Proof.
  intros ops.
  assert (Forall (λ op : GameOp Z, is_map_op op = false) ops) as Hops
    by (unfold ops; repeat constructor).
  split; [exact Hops |].
  exact (bookkeeping_keeps_legal_orders westeros ops "Stark"%string Hops).
Defined.

Lemma round_gives_every_bot_its_turn_witness :
  (turn_order three_houses ≠ [] ∧ current_turn_index three_houses = 0) ∧
  run get_current_player
      (Nat.iter 1 (λ s, (run next_turn s).2) three_houses) =
    (Returned (Some "Lannister"%string),
     Nat.iter 1 (λ s, (run next_turn s).2) three_houses) ∧
  Nat.iter 3 (λ s, (run next_turn s).2) three_houses =
    with_turn (turn three_houses + 1) three_houses.
Proof.
  assert (turn_order three_houses ≠ []) as Hne by discriminate.
  split; [by split |].
  destruct (round_gives_every_bot_its_turn three_houses Hne eq_refl)
    as [Heach Hround].
  split; [| exact Hround].
  exact (proj1 (Heach 1%nat "Lannister"%string eq_refl)).
Defined.

Lemma legal_orders_are_well_formed_witness :
  run (is_legal_order "Stark"
         (MkOrder DEFEND moat_cailin_linked None (Some "Stark"%string)))
      westeros = (Returned true, westeros) ∧
  owner moat_cailin_linked = Some "Stark"%string ∧
  get_total_units moat_cailin_linked > 0.
Proof.
  assert (run (is_legal_order "Stark"
                 (MkOrder DEFEND moat_cailin_linked None (Some "Stark"%string)))
              westeros = (Returned true, westeros)) as Hlegal
    by (vm_compute; reflexivity).
  split; [exact Hlegal |].
  destruct (legal_orders_are_well_formed westeros "Stark"%string _ Hlegal)
    as (_ & Hown & Hunits & _).
  by split.
Defined.

Lemma legal_orders_of_bots_are_disjoint_witness :
  names_unique westeros ∧
  ∃ legal1 legal2,
    run (get_legal_orders "Stark") westeros = (Returned legal1, westeros) ∧
    run (get_legal_orders "Frey") westeros = (Returned legal2, westeros) ∧
    ∀ n, n ∈ dom legal1 → n ∈ dom legal2 → "Stark"%string = "Frey"%string.
Proof.
  pose proof (keyed_by_name_unique westeros westeros_keyed_by_name) as Hunique.
  split; [exact Hunique |].
  exact (legal_orders_of_bots_are_disjoint westeros
           "Stark"%string "Frey"%string Hunique).
Defined.

Lemma add_units_first_owner_wins_witness :
  let ops := [OpRemoveUnits FOOTMAN 2;
              OpAddCrowns 3;
              OpAddUnits KNIGHT 1 None;
              OpAddUnits BOAT 1 (Some "Lannister"%string);
              OpRemoveSupply 1] in
  (run (add_units FOOTMAN 2 (Some "Stark"%string)) winterfell =
     (Returned true, winterfell_held) ∧
   Forall (λ op : LocationOp, is_set_owner op = false) ops) ∧
  owner (perform_all ops winterfell_held) = Some "Stark"%string ∧
  run (add_units FOOTMAN 1 (Some "Lannister"%string))
      (perform_all ops winterfell_held) =
    (Raised ValueError, perform_all ops winterfell_held).
Proof.
  intros ops.
  assert (run (add_units FOOTMAN 2 (Some "Stark"%string)) winterfell =
            (Returned true, winterfell_held)) as Hadd
    by (vm_compute; reflexivity).
  assert (Forall (λ op : LocationOp, is_set_owner op = false) ops) as Hops
    by (unfold ops; repeat constructor).
  split; [by split |].
  destruct (add_units_first_owner_wins winterfell FOOTMAN 2 "Stark"%string
              true winterfell_held ops Hadd Hops) as [Hkept Hrefused].
  split; [exact Hkept |].
  apply Hrefused. discriminate.
Defined.

